(** * Verification of the candidate generator, the error-adaptive
      controller and the worker/refill loops of [ssh-brute.py].

    The Python program is embedded shallowly:
    - Python [int] counters are [nat], the [length] argument (which the
      command line allows to be negative) is [Z];
    - Python [float] timestamps are IEEE-754 binary64 values, i.e. Rocq's
      primitive floats;
    - Python [str] is [string]; a character is an [ascii];
    - the module-level dict [PRIORITY_PATTERNS] is a [gmap];
    - the generator [optimized_generator] is a resumable state machine
      driven by [gen_next], one call per Python [next(gen)];
    - the threads of [run] and [worker] are a labelled step relation on a
      shared state, one step per lock-protected region or per unlocked
      read/queue operation. *)

From Stdlib Require Import ZArith List String Ascii Lia PrimFloat.
From stdpp Require Import gmap strings list.

Local Open Scope string_scope.
Local Open Scope list_scope.

(** * Configuration (lines 14-23) *)

Definition MAX_THREADS : nat := 5.
Definition RETRY_DELAY : float := 2%float.
Definition MAX_ERRORS_BEFORE_PAUSE : nat := 3.
Definition PAUSE_DURATION : float := 10%float.

Definition PRIORITY_PATTERNS : gmap Z (list string) :=
  {[ 3%Z := ["AAA"; "BBB"; "CCC"; "ADM"; "PWD"; "SYS"; "ADM"; "123"; "QWE"] ]}.

(** * Command-line arguments and the active charset (lines 48-57, 210-219) *)

Module args.
Record t := mk {
  host : string;
  username : string;
  length : Z;
  lower : bool;
  upper : bool;
  digits : bool;
  special : string
}.
End args.

Definition ascii_lowercase : string := "abcdefghijklmnopqrstuvwxyz".
Definition ascii_uppercase : string := "ABCDEFGHIJKLMNOPQRSTUVWXYZ".
Definition ascii_letters : string := String.append ascii_lowercase ascii_uppercase.
Definition string_digits : string := "0123456789".

(** Python truthiness of a [str]: non-empty. *)
Definition truthy (s : string) : bool :=
  match s with EmptyString => false | String _ _ => true end.

Definition build_charset (a : args.t) : string :=
  if args.upper a then ascii_uppercase
  else if args.lower a then ascii_lowercase
  else if args.digits a then string_digits
  else if truthy (args.special a) then args.special a
  else String.append ascii_letters (String.append string_digits "!@#$%^&*").

(** * [itertools.product(pool, repeat=n)]

    The library function is specified by its documented equivalent:
    [result = [[]]], then for every pool
    [result = [x+[y] for x in result for y in pool]].
    A negative [repeat] raises [ValueError]. *)

Section Product.
Context {A : Type}.

Definition product_step (pool : list A) (result : list (list A)) : list (list A) :=
  flat_map (fun x => map (fun y => x ++ [y]) pool) result.

Definition product_list (pool : list A) (n : nat) : list (list A) :=
  Nat.iter n (product_step pool) [[]].

Definition product (pool : list A) (repeat : Z) : option (list (list A)) :=
  if (repeat <? 0)%Z then None else Some (product_list pool (Z.to_nat repeat)).
End Product.

(** [''.join(pwd)] for a tuple of one-character strings. *)
Definition join (pwd : list ascii) : string := string_of_list_ascii pwd.

(** * The generator [optimized_generator] (lines 59-69)

    A generator object is suspended either before its first statement, at
    the [yield] of the first loop, at the [yield] of the second loop, or
    it is finished. *)

Inductive gen_state : Type :=
| GenStart
| GenPriority (rest : list string)
| GenProduct (rest : list (list ascii))
| GenDone.

Inductive gen_result : Type :=
| Yield (pwd : string)
| StopIteration
| RaiseValueError.

(** The second loop: fetch the next tuple, test [self.shutdown], yield. *)
Definition product_loop (shutdown : bool) (tuples : list (list ascii))
  : gen_result * gen_state :=
  match tuples with
  | [] => (StopIteration, GenDone)
  | pwd :: rest =>
      if shutdown then (StopIteration, GenDone)
      else (Yield (join pwd), GenProduct rest)
  end.

Definition enter_product (a : args.t) (charset : string) (shutdown : bool)
  : gen_result * gen_state :=
  match product (list_ascii_of_string charset) (args.length a) with
  | None => (RaiseValueError, GenDone)
  | Some tuples => product_loop shutdown tuples
  end.

(** The first loop: no test of [self.shutdown] between patterns. *)
Definition priority_loop (a : args.t) (charset : string) (shutdown : bool)
    (pats : list string) : gen_result * gen_state :=
  match pats with
  | pattern :: rest => (Yield pattern, GenPriority rest)
  | [] => enter_product a charset shutdown
  end.

(** One [next(gen)]; [shutdown] is the value of [self.shutdown] that the
    resumed body reads. *)
Definition gen_next (a : args.t) (charset : string) (shutdown : bool)
    (g : gen_state) : gen_result * gen_state :=
  match g with
  | GenStart =>
      match PRIORITY_PATTERNS !! args.length a with
      | Some pats => priority_loop a charset shutdown pats
      | None => enter_product a charset shutdown
      end
  | GenPriority rest => priority_loop a charset shutdown rest
  | GenProduct rest => product_loop shutdown rest
  | GenDone => (StopIteration, GenDone)
  end.

(** A sequence of [next(gen)] calls, the [i]-th one reading the flag
    [sds !! i]. *)
Fixpoint gen_calls (a : args.t) (charset : string) (sds : list bool)
    (g : gen_state) : list gen_result * gen_state :=
  match sds with
  | [] => ([], g)
  | sd :: sds' =>
      let '(r, g') := gen_next a charset sd g in
      let '(rs, g'') := gen_calls a charset sds' g' in
      (r :: rs, g'')
  end.

Definition yielded (rs : list gen_result) : list string :=
  omap (fun r => match r with Yield p => Some p | _ => None end) rs.

(** The priority items and the exhaustive items for a configuration. *)
Definition priority_items (a : args.t) : list string :=
  default [] (PRIORITY_PATTERNS !! args.length a).

Definition exhaustive_items (a : args.t) (charset : string) : list string :=
  map join (default [] (product (list_ascii_of_string charset) (args.length a))).

(** What a generator in state [g] still has to offer when no call ever
    reads [self.shutdown] as set. *)
Definition pending (a : args.t) (charset : string) (g : gen_state) : list string :=
  match g with
  | GenStart => priority_items a ++ exhaustive_items a charset
  | GenPriority rest => rest ++ exhaustive_items a charset
  | GenProduct rest => map join rest
  | GenDone => []
  end.

(** * Shared state of a [BruteForcer] (lines 25-40)

    [queue.Queue(maxsize=5000)] is its FIFO of items together with the
    counter of unfinished tasks that [task_done] and [join] use. *)

Module Queue.
Record t := mk {
  items : list string;
  unfinished_tasks : nat
}.

Definition maxsize : nat := 5000.
Definition empty : t := mk [] 0.
Definition qsize (q : t) : nat := List.length (items q).

(** [put(item, block=False)]; [None] stands for the exception [Full]. *)
Definition put_nowait (item : string) (q : t) : option t :=
  if (maxsize <=? qsize q)%nat then None
  else Some (mk (items q ++ [item]) (S (unfinished_tasks q))).

(** [get_nowait()]; [None] stands for the exception [Empty]. *)
Definition get_nowait (q : t) : option (string * t) :=
  match items q with
  | [] => None
  | item :: rest => Some (item, mk rest (unfinished_tasks q))
  end.

(** [task_done()]; [None] stands for the [ValueError] of a call without a
    matching [get]. *)
Definition task_done (q : t) : option t :=
  match unfinished_tasks q with
  | 0 => None
  | S n => Some (mk (items q) n)
  end.
End Queue.

Record BruteForcer := mkBruteForcer {
  found : bool;
  shutdown : bool;
  queue : Queue.t;
  attempts : nat;
  start_time : float;
  last_print : float;
  connection_errors : nat;
  consecutive_errors : nat;
  last_error_time : float
}.

(** [__init__]; [now] is the reading of [time.time()]. *)
Definition init_BruteForcer (now : float) : BruteForcer :=
  mkBruteForcer false false Queue.empty 0 now 0%float 0 0 0%float.

Definition set_found (v : bool) (self : BruteForcer) : BruteForcer :=
  mkBruteForcer v (shutdown self) (queue self) (attempts self) (start_time self)
    (last_print self) (connection_errors self) (consecutive_errors self)
    (last_error_time self).

Definition set_shutdown (v : bool) (self : BruteForcer) : BruteForcer :=
  mkBruteForcer (found self) v (queue self) (attempts self) (start_time self)
    (last_print self) (connection_errors self) (consecutive_errors self)
    (last_error_time self).

Definition set_queue (v : Queue.t) (self : BruteForcer) : BruteForcer :=
  mkBruteForcer (found self) (shutdown self) v (attempts self) (start_time self)
    (last_print self) (connection_errors self) (consecutive_errors self)
    (last_error_time self).

Definition set_attempts (v : nat) (self : BruteForcer) : BruteForcer :=
  mkBruteForcer (found self) (shutdown self) (queue self) v (start_time self)
    (last_print self) (connection_errors self) (consecutive_errors self)
    (last_error_time self).

Definition set_last_print (v : float) (self : BruteForcer) : BruteForcer :=
  mkBruteForcer (found self) (shutdown self) (queue self) (attempts self)
    (start_time self) v (connection_errors self) (consecutive_errors self)
    (last_error_time self).

Definition set_connection_errors (v : nat) (self : BruteForcer) : BruteForcer :=
  mkBruteForcer (found self) (shutdown self) (queue self) (attempts self)
    (start_time self) (last_print self) v (consecutive_errors self)
    (last_error_time self).

Definition set_consecutive_errors (v : nat) (self : BruteForcer) : BruteForcer :=
  mkBruteForcer (found self) (shutdown self) (queue self) (attempts self)
    (start_time self) (last_print self) (connection_errors self) v
    (last_error_time self).

Definition set_last_error_time (v : float) (self : BruteForcer) : BruteForcer :=
  mkBruteForcer (found self) (shutdown self) (queue self) (attempts self)
    (start_time self) (last_print self) (connection_errors self)
    (consecutive_errors self) v.

(** * Observable effects: sleeps and console lines *)

Inductive message : Type :=
| MsgShuttingDown
| MsgPausing
| MsgUnexpected (err : string)
| MsgSuccess (user pwd : string)
| MsgProgress (attempts errors : nat) (current : string)
| MsgFinished (attempts errors : nat).

Inductive event : Type :=
| Sleep (seconds : float)
| Print (msg : message).

(** * [handle_connection_error] (lines 71-88)

    The whole body runs under [self.lock]. [current_time] is the reading
    of [time.time()] and [jitter] the value that [random.uniform(0, 1)]
    returns if the second branch calls it. *)
Definition handle_connection_error (current_time jitter : float)
    (self : BruteForcer) : BruteForcer * list event :=
  let self := set_connection_errors (connection_errors self + 1) self in
  let self := set_consecutive_errors (consecutive_errors self + 1) self in
  if (MAX_ERRORS_BEFORE_PAUSE <=? consecutive_errors self)%nat
     && PrimFloat.ltb (PrimFloat.sub current_time (last_error_time self)) 5%float
  then
    (set_last_error_time current_time (set_consecutive_errors 0 self),
     [Print MsgPausing; Sleep PAUSE_DURATION])
  else
    (set_last_error_time current_time self,
     [Sleep (PrimFloat.add RETRY_DELAY jitter)]).

(** * [try_connect] (lines 90-134)

    The [try] body talks to the network; what it does is an input of the
    model. Either a statement before the pre-connect delay of line 104
    raised, or the delay was slept and [ssh.connect] returned or raised.
    The exception classes are those the [except] clauses tell apart;
    [paramiko.AuthenticationException] is a subclass of
    [paramiko.SSHException] and is matched first. *)

Inductive exn : Type :=
| AuthenticationException
| SSHException (msg : string)
| SocketError (msg : string)
| OtherException (msg : string).

Inductive attempt : Type :=
| RaisedEarly (e : exn)
| Connected (delay : float) (raised : option exn).

Definition attempt_events (att : attempt) : list event :=
  match att with
  | RaisedEarly _ => []
  | Connected delay _ => [Sleep delay]
  end.

Definition attempt_raised (att : attempt) : option exn :=
  match att with
  | RaisedEarly e => Some e
  | Connected _ raised => raised
  end.

(** The four outcomes of a probe in the words of the specification. *)
Inductive outcome : Type :=
| Success
| AuthenticationRejected
| TransportError (msg : string)
| UnexpectedError (msg : string).

Definition classify (att : attempt) : outcome :=
  match attempt_raised att with
  | None => Success
  | Some AuthenticationException => AuthenticationRejected
  | Some (SSHException msg) => TransportError msg
  | Some (SocketError msg) => TransportError msg
  | Some (OtherException msg) => UnexpectedError msg
  end.

Definition try_connect (att : attempt) (current_time jitter : float)
    (self : BruteForcer) : bool * BruteForcer * list event :=
  match attempt_raised att with
  | None => (true, self, attempt_events att)
  | Some AuthenticationException =>
      (false, set_consecutive_errors 0 self, attempt_events att)
  | Some (SSHException _) | Some (SocketError _) =>
      let '(self', evs) := handle_connection_error current_time jitter self in
      (false, self', attempt_events att ++ evs)
  | Some (OtherException msg) =>
      (false, self, attempt_events att ++ [Print (MsgUnexpected msg)])
  end.

(** * The threads of a run (lines 42-46 and 136-207)

    Every thread is a program counter; a step executes one statement, a
    region under [self.lock] counting as one statement. The signal handler
    is the exception: its two assignments under the lock are separate
    steps, because the workers read both flags without taking the lock. *)

Inductive worker_pc : Type :=
| WLoop                        (* line 137: test of the loop condition *)
| WGet                         (* line 139: [queue.get_nowait()] *)
| WCheck (password : string)   (* line 143: second test of the flags *)
| WConnect (password : string) (* line 147: [try_connect(password)] *)
| WSuccess (password : string) (* lines 148-152 *)
| WCount (password : string)   (* lines 154-163 *)
| WTaskDone                    (* line 165 *)
| WReturn.                     (* the thread has ended *)

Inductive control_pc : Type :=
| CFill        (* line 170: test of the initial fill loop *)
| CFillPut     (* line 172 *)
| CStart       (* lines 179-184 *)
| CPoll        (* line 187: test of the refill loop *)
| CPollCheck   (* line 189 *)
| CPollPut     (* line 191 *)
| CPollSleep   (* line 194 *)
| CCleanup     (* line 199 *)
| CJoin        (* line 200 *)
| CJoinThreads (* lines 202-203 *)
| CSummary     (* lines 205-207 *)
| CDone
| CCrashed.    (* an exception left [run] *)

Inductive signal_pc : Type :=
| SigIdle
| SigSetShutdown (* lock acquired, line 44 next *)
| SigSetFound    (* line 45 next *)
| SigRelease     (* end of the [with] block *)
| SigPrint.      (* line 46 *)

Record state := mkState {
  bf : BruteForcer;
  gen : gen_state;
  control : control_pc;
  handler : signal_pc;
  workers : list worker_pc;
  output : list event
}.

Definition set_bf (v : BruteForcer) (s : state) : state :=
  mkState v (gen s) (control s) (handler s) (workers s) (output s).
Definition set_gen (v : gen_state) (s : state) : state :=
  mkState (bf s) v (control s) (handler s) (workers s) (output s).
Definition set_control (v : control_pc) (s : state) : state :=
  mkState (bf s) (gen s) v (handler s) (workers s) (output s).
Definition set_handler (v : signal_pc) (s : state) : state :=
  mkState (bf s) (gen s) (control s) v (workers s) (output s).
Definition set_workers (v : list worker_pc) (s : state) : state :=
  mkState (bf s) (gen s) (control s) (handler s) v (output s).
Definition emit (evs : list event) (s : state) : state :=
  mkState (bf s) (gen s) (control s) (handler s) (workers s) (output s ++ evs).

(** [BruteForcer(args)] followed by the creation of the generator at line
    169; no thread exists yet. *)
Definition init_state (now : float) : state :=
  mkState (init_BruteForcer now) GenStart CFill SigIdle [] [].

Definition lock_held (s : state) : bool :=
  match handler s with
  | SigSetShutdown | SigSetFound | SigRelease => true
  | SigIdle | SigPrint => false
  end.

Definition handler_idle (s : state) : bool :=
  match handler s with SigIdle => true | _ => false end.

(** ** The signal handler (lines 42-46) *)

Definition interrupt_exec (s : state) : option state :=
  match handler s with
  | SigIdle => Some (set_handler SigSetShutdown s)
  | _ => None
  end.

Definition handler_exec (s : state) : option state :=
  match handler s with
  | SigIdle => None
  | SigSetShutdown => Some (set_handler SigSetFound (set_bf (set_shutdown true (bf s)) s))
  | SigSetFound => Some (set_handler SigRelease (set_bf (set_found true (bf s)) s))
  | SigRelease => Some (set_handler SigPrint s)
  | SigPrint => Some (set_handler SigIdle (emit [Print MsgShuttingDown] s))
  end.

(** ** The control thread [run] (lines 167-207)

    The handler runs on the control thread, which makes no step of its own
    until the handler has returned. The clause [except KeyboardInterrupt]
    of line 195 would call the same handler; with the handler of line 40
    installed a SIGINT does not raise that exception, so the handler is
    modelled once, as the reaction to the signal. *)

(** The literal [0.1] of lines 176 and 194, i.e. the binary64 value nearest
    to one tenth. *)
Definition POLL_INTERVAL : float := 0x1.999999999999ap-4%float.

Section Run.
Variable a : args.t.
Variable charset : string.

Definition control_exec (s : state) : option state :=
  if negb (handler_idle s) then None else
  match control s with
  | CFill =>
      if negb (shutdown (bf s)) && (Queue.qsize (queue (bf s)) <? 1000)%nat
      then Some (set_control CFillPut s)
      else Some (set_control CStart s)
  | CFillPut =>
      let '(r, g') := gen_next a charset (shutdown (bf s)) (gen s) in
      let s := set_gen g' s in
      match r with
      | Yield pwd =>
          match Queue.put_nowait pwd (queue (bf s)) with
          | Some q' => Some (set_control CFill (set_bf (set_queue q' (bf s)) s))
          | None => Some (set_control CFill (emit [Sleep POLL_INTERVAL] s))
          end
      | StopIteration => Some (set_control CStart s)
      | RaiseValueError => Some (set_control CFill (emit [Sleep POLL_INTERVAL] s))
      end
  | CStart =>
      Some (set_control CPoll
              (set_workers (replicate (MAX_THREADS `min` Queue.qsize (queue (bf s))) WLoop) s))
  | CPoll =>
      if negb (shutdown (bf s)) && negb (found (bf s))
      then Some (set_control CPollCheck s)
      else Some (set_control CCleanup s)
  | CPollCheck =>
      if (Queue.qsize (queue (bf s)) <? 500)%nat
      then Some (set_control CPollPut s)
      else Some (set_control CPollSleep s)
  | CPollPut =>
      let '(r, g') := gen_next a charset (shutdown (bf s)) (gen s) in
      let s := set_gen g' s in
      match r with
      | Yield pwd =>
          match Queue.put_nowait pwd (queue (bf s)) with
          | Some q' => Some (set_control CPollSleep (set_bf (set_queue q' (bf s)) s))
          | None => Some (set_control CCrashed s)
          end
      | StopIteration => Some (set_control CCleanup s)
      | RaiseValueError => Some (set_control CCrashed s)
      end
  | CPollSleep => Some (set_control CPoll (emit [Sleep POLL_INTERVAL] s))
  | CCleanup => Some (set_control CJoin (set_bf (set_shutdown true (bf s)) s))
  | CJoin =>
      match Queue.unfinished_tasks (queue (bf s)) with
      | 0 => Some (set_control CJoinThreads s)
      | S _ => None
      end
  | CJoinThreads => Some (set_control CSummary s)
  | CSummary =>
      Some (set_control CDone
              (emit [Print (MsgFinished (attempts (bf s)) (connection_errors (bf s)))] s))
  | CDone | CCrashed => None
  end.

(** ** A worker thread [worker] (lines 136-165)

    [att], [now] and [jitter] are what the network, [time.time()] and
    [random.uniform(0, 1)] deliver to the statement that is executed. *)

Definition takes_lock (att : attempt) : bool :=
  match attempt_raised att with
  | Some AuthenticationException | Some (SSHException _) | Some (SocketError _) => true
  | Some (OtherException _) | None => false
  end.

Definition set_worker (i : nat) (pc : worker_pc) (s : state) : state :=
  set_workers (<[i := pc]> (workers s)) s.

(** [self.queue.task_done()]; a [ValueError] would end the thread. *)
Definition worker_task_done (i : nat) (next : worker_pc) (s : state) : state :=
  match Queue.task_done (queue (bf s)) with
  | Some q' => set_worker i next (set_bf (set_queue q' (bf s)) s)
  | None => set_worker i WReturn s
  end.

Definition worker_exec (i : nat) (att : attempt) (now jitter : float) (s : state)
  : option state :=
  match workers s !! i with
  | None => None
  | Some WLoop =>
      if negb (shutdown (bf s)) && negb (found (bf s))
      then Some (set_worker i WGet s)
      else Some (set_worker i WReturn s)
  | Some WGet =>
      match Queue.get_nowait (queue (bf s)) with
      | None => Some (set_worker i WReturn s)
      | Some (password, q') =>
          Some (set_worker i (WCheck password) (set_bf (set_queue q' (bf s)) s))
      end
  | Some (WCheck password) =>
      if shutdown (bf s) || found (bf s)
      then Some (worker_task_done i WReturn s)
      else Some (set_worker i (WConnect password) s)
  | Some (WConnect password) =>
      if takes_lock att && lock_held s then None else
      let '(ok, self', evs) := try_connect att now jitter (bf s) in
      Some (set_worker i (if ok then WSuccess password else WCount password)
              (emit evs (set_bf self' s)))
  | Some (WSuccess password) =>
      if lock_held s then None else
      Some (worker_task_done i WReturn
              (emit [Print (MsgSuccess (args.username a) password)]
                 (set_bf (set_found true (bf s)) s)))
  | Some (WCount password) =>
      if lock_held s then None else
      let self := set_attempts (attempts (bf s) + 1) (bf s) in
      if PrimFloat.ltb 1%float (PrimFloat.sub now (last_print self))
      then Some (set_worker i WTaskDone
                   (emit [Print (MsgProgress (attempts self) (connection_errors self) password)]
                      (set_bf (set_last_print now self) s)))
      else Some (set_worker i WTaskDone (set_bf self s))
  | Some WTaskDone => Some (worker_task_done i WLoop s)
  | Some WReturn => None
  end.

(** ** Interleaving *)

Inductive label : Type :=
| Control
| Interrupt
| Handler
| Worker (i : nat) (att : attempt) (now jitter : float).

Definition exec (l : label) (s : state) : option state :=
  match l with
  | Control => control_exec s
  | Interrupt => interrupt_exec s
  | Handler => handler_exec s
  | Worker i att now jitter => worker_exec i att now jitter s
  end.

(** A schedule is executed label by label. *)
Fixpoint exec_all (ls : list label) (s : state) : option state :=
  match ls with
  | [] => Some s
  | l :: ls' => match exec l s with Some s' => exec_all ls' s' | None => None end
  end.

Definition reachable (s : state) : Prop :=
  exists now ls, exec_all ls (init_state now) = Some s.

End Run.

(** ** Quantities read off a schedule *)

Section Schedules.
Variable a : args.t.
Variable charset : string.

(** The number of steps at which [self.found] changes from [False] to
    [True]. *)
Fixpoint found_flips (ls : list label) (s : state) : nat :=
  match ls with
  | [] => 0
  | l :: ls' =>
      match exec a charset l s with
      | Some s' =>
          (if negb (found (bf s)) && found (bf s') then 1 else 0) + found_flips ls' s'
      | None => 0
      end
  end.

(** The number of candidates on which [try_connect] was run, and how many
    of these calls returned [False]. *)
Fixpoint connects (failed_only : bool) (ls : list label) (s : state) : nat :=
  match ls with
  | [] => 0
  | l :: ls' =>
      match exec a charset l s with
      | Some s' =>
          (match l with
           | Worker i att _ _ =>
               match workers s !! i with
               | Some (WConnect _) =>
                   match classify att with
                   | Success => if failed_only then 0 else 1
                   | _ => 1
                   end
               | _ => 0
               end
           | _ => 0
           end) + connects failed_only ls' s'
      | None => 0
      end
  end.

End Schedules.

(** The fields that are only assigned under [self.lock]. *)
Definition locked_fields (self : BruteForcer) :=
  (found self, shutdown self, attempts self, last_print self,
   connection_errors self, consecutive_errors self, last_error_time self).

(** The refill loop of lines 187-196, and what comes after it. *)
Definition steady (c : control_pc) : bool :=
  match c with
  | CPoll | CPollCheck | CPollPut | CPollSleep => true
  | _ => false
  end.

Definition after_refill (c : control_pc) : bool :=
  match c with
  | CCleanup | CJoin | CJoinThreads | CSummary | CDone | CCrashed => true
  | _ => false
  end.

(** A worker between a [try_connect] that returned [False] and the
    increment of line 155. *)
Definition counting (pc : worker_pc) : bool :=
  match pc with WCount _ => true | _ => false end.

(** ** Invariants of a run *)

(** From the acquisition of the lock by the handler on: what the handler
    has assigned so far. *)
Definition handler_progress (s : state) : Prop :=
  handler s = SigSetShutdown \/
  (handler s = SigSetFound /\ shutdown (bf s) = true) \/
  (shutdown (bf s) = true /\ found (bf s) = true).

(** What the control thread maintains about the queue: the initial fill
    stops at 1000 items, and a [put] is only reached below the bound that
    was tested just before. *)
Definition queue_inv (s : state) : Prop :=
  Queue.qsize (queue (bf s)) <= 1000 /\
  (control s = CFillPut -> Queue.qsize (queue (bf s)) < 1000) /\
  (control s = CPollPut -> Queue.qsize (queue (bf s)) < 500).

Definition before_start (c : control_pc) : bool :=
  match c with CFill | CFillPut | CStart => true | _ => false end.

Fixpoint count_workers (f : worker_pc -> bool) (ws : list worker_pc) : nat :=
  match ws with
  | [] => 0
  | pc :: ws' => (if f pc then 1 else 0) + count_workers f ws'
  end.

(** The workers that hold a candidate for which [task_done] is due. *)
Definition holding (pc : worker_pc) : bool :=
  match pc with
  | WCheck _ | WConnect _ | WSuccess _ | WCount _ | WTaskDone => true
  | WLoop | WGet | WReturn => false
  end.

(** Workers exist from line 180 on, and the queue's count of unfinished
    tasks is the queued candidates plus those that workers hold. *)
Definition tasks_inv (s : state) : Prop :=
  (before_start (control s) = true -> workers s = []) /\
  Queue.unfinished_tasks (queue (bf s)) =
    Queue.qsize (queue (bf s)) + count_workers holding (workers s).

(** ** Further quantities read off a schedule or a trace *)

Definition is_transport (o : outcome) : bool :=
  match o with TransportError _ => true | _ => false end.

Definition connecting (pc : worker_pc) : bool :=
  match pc with WConnect _ => true | _ => false end.

Definition returned (pc : worker_pc) : bool :=
  match pc with WReturn => true | _ => false end.

(** The announcements of the long pause (line 80) in a trace. *)
Definition pauses (evs : list event) : nat :=
  List.length
    (List.filter (fun e => match e with Print MsgPausing => true | _ => false end) evs).

Section MoreSchedules.
Variable a : args.t.
Variable charset : string.

(** The calls of [try_connect] that end in a transport error. *)
Fixpoint transport_errors (ls : list label) (s : state) : nat :=
  match ls with
  | [] => 0
  | l :: ls' =>
      match exec a charset l s with
      | Some s' =>
          (match l with
           | Worker i att _ _ =>
               match workers s !! i with
               | Some (WConnect _) => if is_transport (classify att) then 1 else 0
               | _ => 0
               end
           | _ => 0
           end) + transport_errors ls' s'
      | None => 0
      end
  end.

(** The candidates that the workers take off the queue (line 139), in the
    order in which they take them. *)
Fixpoint dequeued (ls : list label) (s : state) : list string :=
  match ls with
  | [] => []
  | l :: ls' =>
      match exec a charset l s with
      | Some s' =>
          (match l with
           | Worker i _ _ _ =>
               match workers s !! i, Queue.get_nowait (queue (bf s)) with
               | Some WGet, Some (password, _) => [password]
               | _, _ => []
               end
           | _ => []
           end) ++ dequeued ls' s'
      | None => []
      end
  end.

(** The candidates on which the workers run [try_connect] (line 147), in
    the order of the calls. *)
Fixpoint probed (ls : list label) (s : state) : list string :=
  match ls with
  | [] => []
  | l :: ls' =>
      match exec a charset l s with
      | Some s' =>
          (match l with
           | Worker i _ _ _ =>
               match workers s !! i with
               | Some (WConnect password) => [password]
               | _ => []
               end
           | _ => []
           end) ++ probed ls' s'
      | None => []
      end
  end.

(** Between the generator and the workers nothing is lost or reordered:
    what was dequeued ([done]), then the queue, then what the generator
    still holds, make up the generator's full output; once the generator
    is finished only a prefix is left. *)
Definition fifo_inv (done : list string) (s : state) : Prop :=
  exists rest,
    done ++ Queue.items (queue (bf s)) ++ rest = pending a charset GenStart /\
    (gen s = GenDone \/ rest = pending a charset (gen s)).

End MoreSchedules.

(** [queue.join()] has returned. *)
Definition joined (c : control_pc) : bool :=
  match c with CJoinThreads | CSummary | CDone => true | _ => false end.

(** * Facts about [itertools.product] *)

Section ProductFacts.
Context {A : Type}.
Implicit Types (pool t : list A) (n i j k : nat).

Lemma product_list_S pool n :
  product_list pool (S n) = product_step pool (product_list pool n).
Proof. reflexivity. Qed.

Lemma flat_map_bind {B C} (f : B -> list C) (l : list B) : flat_map f l = l ≫= f.
Proof. induction l as [|x l IH]; [done|]. cbn. by rewrite IH. Qed.

Lemma length_flat_map_const {B C} (f : B -> list C) (l : list B) k :
  (forall x, List.length (f x) = k) -> List.length (flat_map f l) = List.length l * k.
Proof.
  intros Hf. induction l as [|x l IH]; [done|].
  cbn. rewrite length_app, Hf, IH. lia.
Qed.

Lemma length_product_list pool n :
  List.length (product_list pool n) = List.length pool ^ n.
Proof.
  induction n as [|n IH]; [done|].
  rewrite product_list_S. unfold product_step.
  rewrite (length_flat_map_const _ _ (List.length pool)).
  - rewrite IH. cbn. lia.
  - intros x. apply length_map.
Qed.

(** In a concatenation of blocks of equal size [k], position [i] is in
    block [i / k] at offset [i mod k]. *)
Lemma lookup_flat_map_const {B C} (f : B -> list C) (l : list B) k i :
  0 < k -> (forall x, List.length (f x) = k) ->
  flat_map f l !! i = l !! (i / k) ≫= fun x => f x !! (i mod k).
Proof.
  intros Hk Hf. revert i. induction l as [|x l IH]; intros i.
  - cbn. by rewrite !lookup_nil.
  - cbn [flat_map]. destruct (decide (i < k)) as [Hlt|Hge].
    + rewrite lookup_app_l by (rewrite Hf; lia).
      rewrite Nat.div_small, Nat.mod_small by lia. done.
    + rewrite lookup_app_r by (rewrite Hf; lia). rewrite Hf, IH.
      assert (i / k = S ((i - k) / k)) as ->.
      { replace i with ((i - k) + 1 * k) at 1 by lia. rewrite Nat.div_add; lia. }
      assert (i mod k = (i - k) mod k) as ->.
      { replace i with ((i - k) + 1 * k) at 1 by lia. apply Nat.Div0.mod_add. }
      done.
Qed.

(** Odometer order: the candidate at position [i] has, at place [j] from
    the left, the pool character whose index is digit [j] of [i] written
    in base [k] with [n] digits; the rightmost place is [i mod k]. *)
Lemma product_list_lookup pool n i :
  i < List.length pool ^ n ->
  exists t, product_list pool n !! i = Some t /\ List.length t = n /\
    forall j, j < n ->
      t !! j = pool !! ((i / List.length pool ^ (n - 1 - j)) mod List.length pool).
Proof.
  revert i. induction n as [|n IH]; intros i Hi.
  - cbn in Hi. assert (i = 0) as -> by lia. exists []. split; [done|]. split; [done|]. intros; lia.
  - set (k := List.length pool) in *.
    assert (0 < k) as Hk.
    { destruct (decide (k = 0)) as [E|]; [|lia]. rewrite E in Hi. cbn in Hi. lia. }
    rewrite product_list_S. unfold product_step.
    rewrite (lookup_flat_map_const _ _ k) by (done || intros; apply length_map).
    destruct (IH (i / k)) as (t & Ht & Hlen & Hdig).
    { apply Nat.Div0.div_lt_upper_bound. cbn in Hi. lia. }
    rewrite Ht. cbn. rewrite list_lookup_fmap.
    destruct (lookup_lt_is_Some_2 pool (i mod k)) as [y Hy].
    { apply Nat.mod_upper_bound. lia. }
    rewrite Hy. cbn. exists (t ++ [y]). split; [done|]. split.
    { rewrite length_app. cbn. lia. }
    intros j Hj. destruct (decide (j < n)) as [Hlt|Hge].
    + rewrite lookup_app_l by lia. rewrite Hdig by done.
      rewrite Nat.Div0.div_div. f_equal. f_equal. f_equal.
      replace (n - 0 - j) with (S (n - 1 - j)) by lia. done.
    + assert (j = n) as -> by lia.
      rewrite lookup_app_r by lia. rewrite Hlen, Nat.sub_diag.
      match goal with |- context [k ^ ?e] => replace e with 0 by lia end.
      rewrite Nat.pow_0_r, Nat.div_1_r. done.
Qed.

Lemma elem_of_product_list pool n t :
  t ∈ product_list pool n <-> List.length t = n /\ Forall (fun c => c ∈ pool) t.
Proof.
  revert t. induction n as [|n IH]; intros t.
  - cbn. rewrite list_elem_of_singleton. split.
    + intros ->. by split.
    + intros [Hl _]. by destruct t.
  - rewrite product_list_S. unfold product_step. rewrite flat_map_bind.
    rewrite list_elem_of_bind. split.
    + intros (x & Hin & Hx). apply list_elem_of_fmap in Hin as (y & -> & Hy).
      apply IH in Hx as [Hl Hall]. split.
      * rewrite length_app. cbn. lia.
      * apply Forall_app. split; [done|]. by constructor.
    + intros [Hl Hall]. destruct (decide (t = [])) as [->|Hne]; [done|].
      destruct (exists_last Hne) as (x & y & ->).
      rewrite length_app in Hl. cbn in Hl. apply Forall_app in Hall as [Hx Hy].
      exists x. split.
      * apply list_elem_of_fmap. exists y. split; [done|]. by inversion Hy.
      * apply IH. split; [lia|done].
Qed.

Lemma NoDup_product_list pool n : NoDup pool -> NoDup (product_list pool n).
Proof.
  intros Hpool. induction n as [|n IH].
  - cbn. apply NoDup_singleton.
  - rewrite product_list_S. unfold product_step. rewrite flat_map_bind.
    apply NoDup_bind; [| |done].
    + intros x1 x2 t _ _ H1 H2.
      apply list_elem_of_fmap in H1 as (y1 & -> & _).
      apply list_elem_of_fmap in H2 as (y2 & E & _).
      by apply app_inj_tail in E as [? _].
    + intros x _. apply NoDup_fmap_2; [|done].
      intros y1 y2 E. by apply app_inj_tail in E as [_ ?].
Qed.
End ProductFacts.

(** * Facts about strings *)

Lemma length_list_ascii_of_string (s : string) :
  List.length (list_ascii_of_string s) = String.length s.
Proof. induction s as [|c s IH]; [done|]. cbn. by rewrite IH. Qed.

Lemma get_list_ascii_of_string (s : string) (i : nat) :
  String.get i s = list_ascii_of_string s !! i.
Proof.
  revert i. induction s as [|c s IH]; intros [|i]; cbn; auto.
Qed.

Lemma join_inj : Inj (=) (=) join.
Proof.
  intros t1 t2 E. unfold join in E.
  rewrite <- (list_ascii_of_string_of_list_ascii t1),
          <- (list_ascii_of_string_of_list_ascii t2). by rewrite E.
Qed.

Lemma list_ascii_of_join (t : list ascii) : list_ascii_of_string (join t) = t.
Proof. apply list_ascii_of_string_of_list_ascii. Qed.

Lemma join_list_ascii (s : string) : join (list_ascii_of_string s) = s.
Proof. apply string_of_list_ascii_of_string. Qed.

(** * Facts about the generator *)

Section Generator.
Variable a : args.t.
Variable charset : string.

Lemma gen_calls_app sds1 sds2 g :
  gen_calls a charset (sds1 ++ sds2) g =
  let '(rs1, g1) := gen_calls a charset sds1 g in
  let '(rs2, g2) := gen_calls a charset sds2 g1 in
  (rs1 ++ rs2, g2).
Proof.
  revert g. induction sds1 as [|sd sds1 IH]; intros g; cbn.
  - by destruct (gen_calls a charset sds2 g).
  - destruct (gen_next a charset sd g) as [r g']. rewrite IH.
    destruct (gen_calls a charset sds1 g') as [rs1 g1].
    by destruct (gen_calls a charset sds2 g1).
Qed.

Lemma gen_calls_done sds :
  gen_calls a charset sds GenDone = (replicate (List.length sds) StopIteration, GenDone).
Proof. induction sds as [|sd sds IH]; [done|]. cbn. by rewrite IH. Qed.

(** The first loop ignores the flag: one pattern per call. *)
Lemma gen_calls_priority sds pats rest :
  List.length sds = List.length pats ->
  gen_calls a charset sds (GenPriority (pats ++ rest)) = (Yield <$> pats, GenPriority rest).
Proof.
  revert sds. induction pats as [|p pats IH]; intros [|sd sds] Hlen; try done.
  cbn in Hlen. cbn. rewrite IH by lia. done.
Qed.

Lemma gen_calls_start_priority sds pats :
  PRIORITY_PATTERNS !! args.length a = Some pats ->
  pats <> [] ->
  List.length sds = List.length pats ->
  gen_calls a charset sds GenStart = (Yield <$> pats, GenPriority []).
Proof.
  intros Htab Hne Hlen. destruct pats as [|p pats], sds as [|sd sds]; try done.
  cbn in Hlen. cbn [gen_calls gen_next]. rewrite Htab. cbn [priority_loop].
  rewrite <- (app_nil_r pats) at 1. rewrite gen_calls_priority by lia. done.
Qed.

(** One call: it either yields the head of [pending] and keeps the tail
    pending, or it finishes the generator. *)
Lemma gen_next_pending sd g :
  match gen_next a charset sd g with
  | (Yield p, g') => pending a charset g = p :: pending a charset g'
  | (_, g') => g' = GenDone
  end.
Proof.
  assert (forall ts, match product_loop sd ts with
                     | (Yield p, g') => map join ts = p :: pending a charset g'
                     | (_, g') => g' = GenDone end) as Hloop.
  { intros [|t ts]; cbn; [done|]. by destruct sd. }
  assert (match enter_product a charset sd with
          | (Yield p, g') => exhaustive_items a charset = p :: pending a charset g'
          | (_, g') => g' = GenDone end) as Henter.
  { unfold enter_product, exhaustive_items.
    destruct (product _ _) as [ts|]; [apply Hloop|done]. }
  assert (forall pats, match priority_loop a charset sd pats with
                       | (Yield p, g') =>
                           pats ++ exhaustive_items a charset = p :: pending a charset g'
                       | (_, g') => g' = GenDone end) as Hprio.
  { intros [|p pats]; [apply Henter|done]. }
  destruct g as [|rest|rest|]; cbn [gen_next pending].
  - unfold priority_items. destruct (PRIORITY_PATTERNS !! _) as [pats|]; cbn.
    + apply Hprio.
    + apply Henter.
  - apply Hprio.
  - apply Hloop.
  - done.
Qed.

(** With the flag clear, a call yields whenever something is pending. *)
Lemma gen_next_clear g p ps :
  pending a charset g = p :: ps ->
  exists g', gen_next a charset false g = (Yield p, g') /\ pending a charset g' = ps.
Proof.
  intros Hp.
  assert (forall ts q qs, map join ts = q :: qs ->
            exists g', product_loop false ts = (Yield q, g') /\ pending a charset g' = qs)
    as Hloop.
  { intros [|t ts] q qs E; [done|]. cbn in E. injection E as <- <-. by eexists. }
  assert (forall q qs, exhaustive_items a charset = q :: qs ->
            exists g', enter_product a charset false = (Yield q, g') /\
                       pending a charset g' = qs) as Henter.
  { unfold enter_product, exhaustive_items. intros q qs E.
    destruct (product _ _) as [ts|]; [by apply Hloop|done]. }
  assert (forall pats q qs, pats ++ exhaustive_items a charset = q :: qs ->
            exists g', priority_loop a charset false pats = (Yield q, g') /\
                       pending a charset g' = qs) as Hprio.
  { intros [|x pats] q qs E; [by apply Henter|].
    cbn in E. injection E as <- <-. by eexists. }
  destruct g as [|rest|rest|]; cbn [gen_next pending] in *.
  - unfold priority_items in Hp. destruct (PRIORITY_PATTERNS !! _) as [pats|]; cbn in Hp.
    + by apply Hprio.
    + by apply Henter.
  - by apply Hprio.
  - by apply Hloop.
  - done.
Qed.

(** Draining the generator without cancellation offers exactly [pending]. *)
Lemma gen_calls_clear g :
  gen_calls a charset (replicate (List.length (pending a charset g)) false) g =
  (Yield <$> pending a charset g,
   (gen_calls a charset (replicate (List.length (pending a charset g)) false) g).2)
  /\ pending a charset
       (gen_calls a charset (replicate (List.length (pending a charset g)) false) g).2 = [].
Proof.
  remember (pending a charset g) as ps eqn:Hps. revert g Hps.
  induction ps as [|p ps IH]; intros g Hps; [done|].
  destruct (gen_next_clear g p ps) as (g' & Hnext & Hpend); [done|].
  cbn. rewrite Hnext. destruct (IH g' (eq_sym Hpend)) as [E1 E2].
  destruct (gen_calls a charset _ g') as [rs g'']. cbn in *.
  injection E1 as ->. done.
Qed.

(** Under any sequence of flags, the yields never exceed [pending]. *)
Lemma gen_calls_bound sds g :
  List.length (yielded (gen_calls a charset sds g).1) <= List.length (pending a charset g).
Proof.
  revert g. induction sds as [|sd sds IH]; intros g; cbn; [lia|].
  pose proof (gen_next_pending sd g) as Hn.
  destruct (gen_next a charset sd g) as [r g'].
  specialize (IH g'). destruct (gen_calls a charset sds g') as [rs g'']. cbn in *.
  destruct r; cbn.
  - rewrite Hn. cbn. unfold yielded in IH. lia.
  - subst g'. cbn in IH. unfold yielded in IH. lia.
  - subst g'. cbn in IH. unfold yielded in IH. lia.
Qed.

(** More calls than pending items always finish the generator. *)
Lemma gen_calls_finish sds g :
  List.length (pending a charset g) < List.length sds ->
  (gen_calls a charset sds g).2 = GenDone.
Proof.
  revert g. induction sds as [|sd sds IH]; intros g Hlen; cbn in *; [lia|].
  pose proof (gen_next_pending sd g) as Hn.
  destruct (gen_next a charset sd g) as [r g'].
  assert (r = StopIteration \/ r = RaiseValueError -> (gen_calls a charset sds g').2 = GenDone)
    as Hstop.
  { intros Hr. assert (g' = GenDone) as -> by (by destruct Hr as [-> | ->]).
    by rewrite gen_calls_done. }
  destruct (gen_calls a charset sds g') as [rs g''] eqn:E. cbn in *.
  destruct r; [|by apply Hstop; left|by apply Hstop; right].
  specialize (IH g'). rewrite E in IH. apply IH. rewrite Hn in Hlen. cbn in Hlen. lia.
Qed.

End Generator.

(** * The exhaustive part of the generator's output *)

Section Exhaustive.
Variable a : args.t.
Variable charset : string.
Hypothesis length_nonneg : (0 <= args.length a)%Z.

Local Abbreviation n := (Z.to_nat (args.length a)).
Local Abbreviation k := (String.length charset).

Lemma exhaustive_items_nonneg :
  exhaustive_items a charset = join <$> product_list (list_ascii_of_string charset) n.
Proof.
  unfold exhaustive_items, product.
  destruct (Z.ltb_spec (args.length a) 0); [lia|done].
Qed.

Lemma length_exhaustive_items : List.length (exhaustive_items a charset) = k ^ n.
Proof.
  rewrite exhaustive_items_nonneg, length_fmap, length_product_list.
  by rewrite length_list_ascii_of_string.
Qed.

Lemma elem_of_exhaustive_items (s : string) :
  s ∈ exhaustive_items a charset <->
  String.length s = n /\
  forall c, c ∈ list_ascii_of_string s -> c ∈ list_ascii_of_string charset.
Proof.
  rewrite exhaustive_items_nonneg, list_elem_of_fmap.
  rewrite <- length_list_ascii_of_string, <- Forall_forall. split.
  - intros (t & -> & Ht). rewrite list_ascii_of_join. by apply elem_of_product_list.
  - intros H. exists (list_ascii_of_string s). split.
    + by rewrite join_list_ascii.
    + by apply elem_of_product_list.
Qed.

Lemma NoDup_exhaustive_items :
  NoDup (list_ascii_of_string charset) -> NoDup (exhaustive_items a charset).
Proof.
  intros Hnd. rewrite exhaustive_items_nonneg.
  apply NoDup_fmap_2; [apply join_inj|]. by apply NoDup_product_list.
Qed.

Lemma exhaustive_items_lookup (i : nat) :
  i < k ^ n ->
  exists s, exhaustive_items a charset !! i = Some s /\ String.length s = n /\
    forall j, j < n ->
      String.get j s = String.get ((i / k ^ (n - 1 - j)) mod k) charset.
Proof.
  intros Hi. unfold k in *. rewrite <- length_list_ascii_of_string in *.
  destruct (product_list_lookup (list_ascii_of_string charset) n i Hi)
    as (t & Ht & Hlen & Hdig).
  exists (join t). rewrite exhaustive_items_nonneg, list_lookup_fmap, Ht.
  split; [done|]. split.
  - by rewrite <- length_list_ascii_of_string, list_ascii_of_join.
  - intros j Hj. rewrite !get_list_ascii_of_string, list_ascii_of_join. by apply Hdig.
Qed.

(** A generator for a non-negative length never raises. *)
Lemma gen_next_no_raise sd g : (gen_next a charset sd g).1 <> RaiseValueError.
Proof.
  assert (forall ts, (product_loop sd ts).1 <> RaiseValueError) as Hloop.
  { intros [|t ts]; cbn; [done|]. by destruct sd. }
  assert ((enter_product a charset sd).1 <> RaiseValueError) as Henter.
  { unfold enter_product, product.
    destruct (Z.ltb_spec (args.length a) 0); [lia|apply Hloop]. }
  assert (forall pats, (priority_loop a charset sd pats).1 <> RaiseValueError) as Hprio.
  { intros [|p pats]; [apply Henter|done]. }
  destruct g as [|rest|rest|]; cbn [gen_next]; [|apply Hprio|apply Hloop|done].
  destruct (PRIORITY_PATTERNS !! _); [apply Hprio|apply Henter].
Qed.

(** Without cancellation the generator offers [pending] and then reports
    exhaustion on every further call. *)
Lemma gen_calls_clear_full g extra :
  gen_calls a charset (replicate (List.length (pending a charset g) + S extra) false) g =
  ((Yield <$> pending a charset g) ++ replicate (S extra) StopIteration, GenDone).
Proof.
  remember (pending a charset g) as ps eqn:Hps. revert g Hps.
  induction ps as [|p ps IH]; intros g Hps.
  - cbn [List.length Nat.add replicate gen_calls].
    pose proof (gen_next_pending a charset false g) as Hn.
    pose proof (gen_next_no_raise false g) as Hr.
    destruct (gen_next a charset false g) as [[q| |] g']; cbn in Hr.
    + rewrite <- Hps in Hn. done.
    + subst g'. by rewrite gen_calls_done, length_replicate.
    + done.
  - destruct (gen_next_clear a charset g p ps) as (g' & Hnext & Hpend); [done|].
    cbn [List.length Nat.add replicate gen_calls]. rewrite Hnext.
    by rewrite (IH g' (eq_sym Hpend)).
Qed.

End Exhaustive.

(** * The claims about the candidate generator *)

(** C1: when the priority table has an entry for the requested length, the
    first results of the generator are that entry's patterns, verbatim and
    in table order, ahead of every exhaustively generated candidate; this
    holds for every active charset and whatever value of the shutdown flag
    each call reads. *)
Theorem C1_priority_patterns_first
    (a : args.t) (charset : string) (pats : list string) (sds : list bool) :
  PRIORITY_PATTERNS !! args.length a = Some pats ->
  List.length pats <= List.length sds ->
  take (List.length pats) (gen_calls a charset sds GenStart).1 = Yield <$> pats.
Proof.
  intros Htab Hlen. destruct (decide (pats = [])) as [->|Hne]; [done|].
  rewrite <- (take_drop (List.length pats) sds), gen_calls_app.
  rewrite (gen_calls_start_priority a charset _ pats) by (done || rewrite length_take; lia).
  destruct (gen_calls a charset _ (GenPriority [])) as [rs g]. cbn [fst].
  rewrite take_app_length'; [done|by rewrite length_fmap].
Qed.

Lemma C1_priority_patterns_first_witness :
  let a := args.mk "10.0.0.1" "root" 3 false false true "" in
  take 9 (gen_calls a (build_charset a) (replicate 12 true) GenStart).1 =
  Yield <$> ["AAA"; "BBB"; "CCC"; "ADM"; "PWD"; "SYS"; "ADM"; "123"; "QWE"].
Proof.
  intros a.
  apply (C1_priority_patterns_first a (build_charset a)
           ["AAA"; "BBB"; "CCC"; "ADM"; "PWD"; "SYS"; "ADM"; "123"; "QWE"]
           (replicate 12 true)).
  - reflexivity.
  - cbn. lia.
Defined.

(** C2, counterexample: with the charset [--special aa] (size 2) and
    length 1 the exhaustive part is "a", "a": the candidate "a" is offered
    twice, not exactly once. *)
Lemma C2_counterexample_repeated_character :
  let a := args.mk "10.0.0.1" "root" 1 false false false "aa" in
  build_charset a = "aa" /\
  gen_calls a (build_charset a) (replicate 3 false) GenStart =
    ([Yield "a"; Yield "a"; StopIteration], GenDone) /\
  ~ NoDup (yielded [Yield "a"; Yield "a"; StopIteration]).
Proof.
  intros a. split; [reflexivity|]. split; [reflexivity|].
  cbn. intros H. apply NoDup_cons in H as [Hin _]. apply Hin. left.
Qed.

(** C2, amended: for a charset of [k] pairwise distinct characters and a
    length [L >= 0], a generator that is never cancelled offers the
    priority items and then exactly the [k^L] strings of length [L] over
    the charset, each once, the one at position [i] having at place [j]
    the charset character of index [(i / k^(L-1-j)) mod k] (odometer
    order, rightmost place fastest), and then stops. *)
Theorem C2_exhaustive_enumeration (a : args.t) (charset : string) :
  (0 <= args.length a)%Z ->
  NoDup (list_ascii_of_string charset) ->
  let L := Z.to_nat (args.length a) in
  let k := String.length charset in
  let E := exhaustive_items a charset in
  let out := priority_items a ++ E in
  (forall extra,
     gen_calls a charset (replicate (List.length out + S extra) false) GenStart =
     ((Yield <$> out) ++ replicate (S extra) StopIteration, GenDone)) /\
  List.length E = k ^ L /\
  NoDup E /\
  (forall s, s ∈ E <->
     String.length s = L /\
     forall c, c ∈ list_ascii_of_string s -> c ∈ list_ascii_of_string charset) /\
  (forall i, i < k ^ L ->
     exists s, E !! i = Some s /\ String.length s = L /\
       forall j, j < L ->
         String.get j s = String.get ((i / k ^ (L - 1 - j)) mod k) charset).
Proof.
  intros Hnonneg Hnd L k E out. split; [|split; [|split; [|split]]].
  - intros extra. by apply (gen_calls_clear_full a charset Hnonneg GenStart).
  - by apply length_exhaustive_items.
  - by apply NoDup_exhaustive_items.
  - intros s. by apply elem_of_exhaustive_items.
  - by apply exhaustive_items_lookup.
Qed.

Lemma C2_exhaustive_enumeration_witness :
  let a := args.mk "10.0.0.1" "root" 2 false false false "ab" in
  exhaustive_items a (build_charset a) = ["aa"; "ab"; "ba"; "bb"] /\
  gen_calls a (build_charset a) (replicate 6 false) GenStart =
    ([Yield "aa"; Yield "ab"; Yield "ba"; Yield "bb"; StopIteration; StopIteration],
     GenDone).
Proof.
  intros a. split; [reflexivity|].
  assert (0 <= args.length a)%Z as Hlen by (cbn; lia).
  assert (NoDup (list_ascii_of_string (build_charset a))) as Hnd.
  { cbn. apply NoDup_cons. split; [|apply NoDup_singleton].
    intros H. apply list_elem_of_singleton in H. discriminate H. }
  exact (proj1 (C2_exhaustive_enumeration a (build_charset a) Hlen Hnd) 1).
Defined.

(** C9, counterexample: with the digits charset (k = 10) and length 3 the
    generator offers 1009 candidates, more than 10^3: the nine priority
    patterns come on top of the exhaustive enumeration. *)
Lemma C9_counterexample_priority_on_top :
  let a := args.mk "10.0.0.1" "root" 3 false false true "" in
  String.length (build_charset a) ^ 3 <
  List.length (yielded (gen_calls a (build_charset a) (replicate 1010 false) GenStart).1).
Proof. vm_compute. lia. Qed.

(** C9, amended: for every charset of size [k] and every length [L >= 0],
    whatever the shutdown flag reads at each call, the generator yields at
    most [p + k^L] candidates, [p] being the number of priority patterns
    listed for [L] (0 without an entry), and it is finished after more
    calls than that. *)
Theorem C9_generator_finite (a : args.t) (charset : string) (sds : list bool) :
  (0 <= args.length a)%Z ->
  let bound := List.length (priority_items a)
               + String.length charset ^ Z.to_nat (args.length a) in
  List.length (yielded (gen_calls a charset sds GenStart).1) <= bound /\
  (bound < List.length sds -> (gen_calls a charset sds GenStart).2 = GenDone).
Proof.
  intros Hnonneg bound.
  assert (List.length (pending a charset GenStart) = bound) as Hb.
  { cbn [pending]. rewrite length_app. by rewrite length_exhaustive_items. }
  split.
  - rewrite <- Hb. apply gen_calls_bound.
  - intros Hlen. apply gen_calls_finish. lia.
Qed.

Lemma C9_generator_finite_witness :
  let a := args.mk "10.0.0.1" "root" 3 false false false "xy" in
  let sds := replicate 20 false in
  List.length (yielded (gen_calls a (build_charset a) sds GenStart).1) <= 9 + 2 ^ 3 /\
  (9 + 2 ^ 3 < List.length sds -> (gen_calls a (build_charset a) sds GenStart).2 = GenDone).
Proof.
  intros a sds. apply (C9_generator_finite a (build_charset a) sds). cbn. lia.
Defined.

(** A priority pattern of the requested length made of charset characters
    is offered a second time by the exhaustive enumeration. *)
Lemma priority_pattern_repeated (a : args.t) (charset : string) (p : string) :
  p ∈ priority_items a ->
  Z.of_nat (String.length p) = args.length a ->
  (forall c, c ∈ list_ascii_of_string p -> c ∈ list_ascii_of_string charset) ->
  exists i j, i < j /\
    (priority_items a ++ exhaustive_items a charset) !! i = Some p /\
    (priority_items a ++ exhaustive_items a charset) !! j = Some p.
Proof.
  intros Hprio Hlen Hchars.
  apply list_elem_of_lookup in Hprio as [i Hi].
  assert (p ∈ exhaustive_items a charset) as Hex.
  { apply elem_of_exhaustive_items; [lia|]. split; [lia|done]. }
  apply list_elem_of_lookup in Hex as [j Hj].
  exists i, (List.length (priority_items a) + j). split; [|split].
  - apply lookup_lt_Some in Hi. lia.
  - by apply lookup_app_l_Some.
  - rewrite lookup_app_r by lia. by rewrite Nat.add_comm, Nat.add_sub.
Qed.

(** C10: the output of the generator can contain a candidate more than
    once. For length 3 the pattern "ADM" is offered at positions 3 and 6
    whatever the charset; every priority pattern of the requested length
    that is made of charset characters is offered again by the exhaustive
    enumeration; with the digits charset this happens to "123", offered at
    position 7 as a priority pattern and again at position 132; both
    repetitions are part of what an uncancelled generator yields. And the
    repetitions reach the probe: in the run with the digits charset and
    length 3 in which one worker has every candidate rejected,
    [try_connect] is called on the first 133 candidates of the generator
    in order, twice on "ADM" and twice on "123". *)
Theorem C10_repeated_candidates :
  (forall h u lo up dg sp charset,
     let a := args.mk h u 3 lo up dg sp in
     let out := priority_items a ++ exhaustive_items a charset in
     out !! 3 = Some "ADM" /\ out !! 6 = Some "ADM") /\
  (forall a charset p,
     let out := priority_items a ++ exhaustive_items a charset in
     p ∈ priority_items a ->
     Z.of_nat (String.length p) = args.length a ->
     (forall c, c ∈ list_ascii_of_string p -> c ∈ list_ascii_of_string charset) ->
     exists i j, i < j /\ out !! i = Some p /\ out !! j = Some p) /\
  (let a := args.mk "10.0.0.1" "root" 3 false false true "" in
   let out := priority_items a ++ exhaustive_items a (build_charset a) in
   build_charset a = "0123456789" /\
   out !! 7 = Some "123" /\ out !! 132 = Some "123" /\
   ~ NoDup out /\
   yielded (gen_calls a (build_charset a) (replicate (List.length out) false) GenStart).1
     = out) /\
  (let a := args.mk "10.0.0.1" "root" 3 false false true "" in
   let out := priority_items a ++ exhaustive_items a (build_charset a) in
   let w := Worker 0 (Connected 0.25%float (Some AuthenticationException))
              1%float 0%float in
   let ls := replicate 2002 Control ++ replicate 798 w in
   exists s,
     exec_all a (build_charset a) ls (init_state 0%float) = Some s /\
     probed a (build_charset a) ls (init_state 0%float) = take 133 out /\
     probed a (build_charset a) ls (init_state 0%float) !! 3 = Some "ADM" /\
     probed a (build_charset a) ls (init_state 0%float) !! 6 = Some "ADM" /\
     probed a (build_charset a) ls (init_state 0%float) !! 7 = Some "123" /\
     probed a (build_charset a) ls (init_state 0%float) !! 132 = Some "123" /\
     connects a (build_charset a) false ls (init_state 0%float) = 133 /\
     attempts (bf s) = 133).
Proof.
  split; [|split; [|split]].
  - intros h u lo up dg sp charset a out. by split.
  - intros a charset p out. apply priority_pattern_repeated.
  - intros a out. split; [reflexivity|]. split; [reflexivity|]. split; [reflexivity|].
    split.
    + intros Hnd. apply NoDup_ListNoDup in Hnd.
      assert (7 = 132) as Habs; [|lia].
      apply (proj1 (NoDup_nth_error out) Hnd 7 132); [vm_compute; lia|reflexivity].
    + vm_compute. reflexivity.
  - intros a out w ls. eexists. split; [vm_compute; reflexivity|].
    repeat split; vm_compute; reflexivity.
Qed.

Lemma C10_repeated_candidates_witness :
  let a := args.mk "10.0.0.1" "root" 3 false false true "" in
  let out := priority_items a ++ exhaustive_items a (build_charset a) in
  exists i j, i < j /\ out !! i = Some "123" /\ out !! j = Some "123".
Proof.
  intros a out.
  apply (proj1 (proj2 C10_repeated_candidates) a (build_charset a) "123").
  - apply list_elem_of_In. vm_compute. auto 10.
  - reflexivity.
  - intros c Hc. apply list_elem_of_In in Hc. apply list_elem_of_In.
    vm_compute in Hc. vm_compute. intuition auto 12.
Defined.

(** * The claims about the error-adaptive controller *)

Section Controller.
Variables (current_time jitter : float) (self : BruteForcer).

(** The fields that [handle_connection_error] never assigns. *)
Lemma handle_connection_error_frame :
  let self' := (handle_connection_error current_time jitter self).1 in
  found self' = found self /\ shutdown self' = shutdown self /\
  queue self' = queue self /\ attempts self' = attempts self /\
  start_time self' = start_time self /\ last_print self' = last_print self.
Proof.
  unfold handle_connection_error. cbn. by destruct (_ && _).
Qed.

End Controller.

(** C3: on a transport error [try_connect] hands over to
    [handle_connection_error], which adds one to [connection_errors] and
    to [consecutive_errors], then, if the incremented [consecutive_errors]
    is at least 3 and [current_time - last_error_time < 5], sleeps the
    fixed 10 seconds and resets [consecutive_errors] to 0, otherwise sleeps
    2 seconds plus the drawn jitter; either way [last_error_time] becomes
    the time read on entry. *)
Theorem C3_transport_error_backoff
    (att : attempt) (msg : string) (current_time jitter : float) (self : BruteForcer) :
  classify att = TransportError msg ->
  let burst :=
    (3 <=? consecutive_errors self + 1)%nat
    && PrimFloat.ltb (PrimFloat.sub current_time (last_error_time self)) 5%float in
  let '(ok, self', evs) := try_connect att current_time jitter self in
  ok = false /\
  connection_errors self' = connection_errors self + 1 /\
  last_error_time self' = current_time /\
  (if burst
   then consecutive_errors self' = 0 /\
        evs = attempt_events att ++ [Print MsgPausing; Sleep 10%float]
   else consecutive_errors self' = consecutive_errors self + 1 /\
        evs = attempt_events att ++ [Sleep (PrimFloat.add 2%float jitter)]).
Proof.
  intros Hcls burst.
  assert (try_connect att current_time jitter self =
          (false, (handle_connection_error current_time jitter self).1,
           attempt_events att ++ (handle_connection_error current_time jitter self).2))
    as ->.
  { unfold classify in Hcls. unfold try_connect.
    destruct (attempt_raised att) as [[| | |]|]; try done;
      by destruct (handle_connection_error _ _ _). }
  unfold handle_connection_error, burst. cbn.
  destruct (_ && _); cbn; auto.
Qed.

Lemma C3_transport_error_backoff_witness :
  let self := mkBruteForcer false false Queue.empty 7 0%float 0%float 2 2 100%float in
  let '(ok, self', evs) :=
    try_connect (Connected 0.25%float (Some (SocketError "timed out")))
      103%float 0.5%float self in
  ok = false /\
  connection_errors self' = 3 /\
  last_error_time self' = 103%float /\
  consecutive_errors self' = 0 /\
  evs = [Sleep 0.25%float; Print MsgPausing; Sleep 10%float].
Proof.
  exact (C3_transport_error_backoff
           (Connected 0.25%float (Some (SocketError "timed out"))) "timed out"
           103%float 0.5%float
           (mkBruteForcer false false Queue.empty 7 0%float 0%float 2 2 100%float)
           eq_refl).
Defined.

(** * Facts about the threads *)

Lemma try_connect_frame (att : attempt) (now jitter : float) (self : BruteForcer) :
  let self' := (try_connect att now jitter self).1.2 in
  found self' = found self /\ shutdown self' = shutdown self /\
  queue self' = queue self /\ attempts self' = attempts self /\
  start_time self' = start_time self /\ last_print self' = last_print self.
Proof.
  unfold try_connect.
  destruct (attempt_raised att) as [[| | |]|]; cbn; try done.
  - pose proof (handle_connection_error_frame now jitter self) as H.
    by destruct (handle_connection_error now jitter self).
  - pose proof (handle_connection_error_frame now jitter self) as H.
    by destruct (handle_connection_error now jitter self).
Qed.

(** [try_connect] returns [True] exactly on a successful probe, and then
    without any change of state. *)
Lemma try_connect_true (att : attempt) (now jitter : float) (self self' : BruteForcer) evs :
  try_connect att now jitter self = (true, self', evs) ->
  classify att = Success /\ self' = self.
Proof.
  unfold try_connect, classify.
  destruct (attempt_raised att) as [[| | |]|]; try done.
  - by destruct (handle_connection_error now jitter self).
  - by destruct (handle_connection_error now jitter self).
  - by intros [= <- <-].
Qed.

(** A step that does not take the lock leaves the fields that lock guards. *)
Lemma try_connect_unlocked (att : attempt) (now jitter : float) (self : BruteForcer) :
  takes_lock att = false -> (try_connect att now jitter self).1.2 = self.
Proof.
  unfold takes_lock, try_connect. by destruct (attempt_raised att) as [[| | |]|].
Qed.

Ltac try_connect_frame_of Hfr :=
  match goal with E : try_connect ?att ?now ?j ?self = _ |- _ =>
    pose proof (try_connect_frame att now j self) as Hfr; rewrite E in Hfr;
    cbn in Hfr
  end.

Ltac exec_inv H :=
  unfold exec, control_exec, interrupt_exec, handler_exec, worker_exec,
    worker_task_done in H;
  repeat case_match; simplify_eq.

Section RunFacts.
Variable a : args.t.
Variable charset : string.

Lemma exec_found_mono l s s' :
  exec a charset l s = Some s' -> found (bf s) = true -> found (bf s') = true.
Proof.
  intros H Hf. exec_inv H; cbn; try done.
  all: try_connect_frame_of Hfr; destruct Hfr as (-> & _); done.
Qed.

Lemma exec_shutdown_mono l s s' :
  exec a charset l s = Some s' -> shutdown (bf s) = true -> shutdown (bf s') = true.
Proof.
  intros H Hf. exec_inv H; cbn; try done.
  all: try_connect_frame_of Hfr; destruct Hfr as (_ & -> & _); done.
Qed.

(** The two statements that assign [self.found]: line 45 of the handler
    and line 149 of a worker. *)
Lemma exec_found_set l s s' :
  exec a charset l s = Some s' ->
  found (bf s) = false -> found (bf s') = true ->
  (l = Handler /\ handler s = SigSetFound) \/
  (exists i att now jitter password,
     l = Worker i att now jitter /\ workers s !! i = Some (WSuccess password)).
Proof.
  intros H Hf Hf'. exec_inv H; cbn in *; try congruence; eauto 10.
  all: try_connect_frame_of Hfr; destruct Hfr as (? & _); congruence.
Qed.

(** Line 148 is reached only by a [try_connect] that returned [True]. *)
Lemma exec_enters_success l s s' i password :
  exec a charset l s = Some s' ->
  workers s' !! i = Some (WSuccess password) ->
  workers s !! i = Some (WSuccess password) \/
  (exists att now jitter,
     l = Worker i att now jitter /\ workers s !! i = Some (WConnect password) /\
     classify att = Success).
Proof.
  intros H Hpc.
  destruct l as [| | |j att now jitter]; cbn in H.
  - unfold control_exec in H. repeat case_match; simplify_eq; cbn in *; auto.
    apply lookup_replicate in Hpc as [? _]. done.
  - unfold interrupt_exec in H. repeat case_match; simplify_eq; cbn in *; auto.
  - unfold handler_exec in H. repeat case_match; simplify_eq; cbn in *; auto.
  - destruct (decide (i = j)) as [->|Hne].
    + unfold worker_exec, worker_task_done in H.
      repeat case_match; simplify_eq; cbn in *;
        try (rewrite list_lookup_insert_eq in Hpc by (by eapply lookup_lt_Some));
        simplify_eq.
      right. exists att, now, jitter.
      match goal with E : try_connect _ _ _ _ = _ |- _ =>
        apply try_connect_true in E as [? _] end. done.
    + unfold worker_exec, worker_task_done in H.
      repeat case_match; simplify_eq; cbn in *;
        rewrite list_lookup_insert_ne in Hpc by done; auto.
Qed.

End RunFacts.

Section LockFacts.
Variable a : args.t.
Variable charset : string.

(** Only the delivery of a signal and the handler itself move the
    handler's program counter. *)
Lemma exec_handler_pc l s s' :
  exec a charset l s = Some s' ->
  l = Interrupt \/ l = Handler \/ handler s' = handler s.
Proof.
  intros H. destruct l; auto. all: right; right; exec_inv H; done.
Qed.

Lemma exec_interrupt_idle l s s' :
  exec a charset l s = Some s' ->
  handler s = SigIdle -> handler s' <> SigIdle -> l = Interrupt.
Proof.
  intros H Hidle Hne. destruct (exec_handler_pc l s s' H) as [?|[->|E]]; [done| |congruence].
  cbn in H. unfold handler_exec in H. by rewrite Hidle in H.
Qed.

(** While the handler holds the lock, no other thread assigns a field
    that the lock guards. *)
Lemma exec_locked_frame l s s' :
  lock_held s = true -> exec a charset l s = Some s' -> l <> Handler ->
  locked_fields (bf s') = locked_fields (bf s).
Proof.
  intros Hlock H Hne. unfold lock_held in Hlock.
  destruct l as [| | |i att now jitter]; [| |done|].
  - cbn in H. unfold control_exec, handler_idle in H. by destruct (handler s).
  - cbn in H. unfold interrupt_exec in H. by destruct (handler s).
  - cbn in H. unfold worker_exec, worker_task_done, lock_held in H.
    repeat case_match; simplify_eq; cbn in *; try done.
    all: match goal with E : try_connect ?att ?now ?j ?self = _ |- _ =>
           pose proof (try_connect_unlocked att now j self) as Hu; rewrite E in Hu;
           cbn in Hu; rewrite Hu; [done|] end.
    all: by destruct (takes_lock att).
Qed.

Lemma exec_handler_progress l s s' :
  exec a charset l s = Some s' -> handler_progress s -> handler_progress s'.
Proof.
  intros H Hp.
  pose proof (exec_found_mono a charset l s s' H) as Hf.
  pose proof (exec_shutdown_mono a charset l s s' H) as Hs.
  destruct (exec_handler_pc l s s' H) as [->|[->|E]].
  - cbn in H. unfold interrupt_exec in H. destruct (handler s) eqn:Eh; simplify_eq.
    destruct Hp as [?|[[? _]|[? ?]]]; try congruence. right; right. cbn. auto.
  - cbn in H. unfold handler_exec in H.
    destruct (handler s) eqn:Eh; simplify_eq; cbn in *.
    + right; left. done.
    + destruct Hp as [?|[[_ ?]|[? ?]]]; try congruence; right; right; auto.
    + destruct Hp as [?|[[? _]|[? ?]]]; try congruence. right; right. auto.
    + destruct Hp as [?|[[? _]|[? ?]]]; try congruence. right; right. auto.
  - unfold handler_progress. rewrite E.
    destruct Hp as [?|[[? ?]|[? ?]]]; auto.
Qed.

Lemma exec_all_handler_progress ls s s' :
  exec_all a charset ls s = Some s' -> handler_progress s -> handler_progress s'.
Proof.
  revert s. induction ls as [|l ls IH]; intros s H Hp; cbn in H.
  - by simplify_eq.
  - destruct (exec a charset l s) as [s1|] eqn:E; [|done].
    eauto using exec_handler_progress.
Qed.

Lemma found_flips_set ls s : found (bf s) = true -> found_flips a charset ls s = 0.
Proof.
  revert s. induction ls as [|l ls IH]; intros s Hf; cbn; [done|].
  destruct (exec a charset l s) as [s'|] eqn:E; [|done].
  rewrite Hf. cbn. apply IH. by eapply exec_found_mono.
Qed.

Lemma found_flips_le ls s : found_flips a charset ls s <= 1.
Proof.
  revert s. induction ls as [|l ls IH]; intros s; cbn; [lia|].
  destruct (exec a charset l s) as [s'|] eqn:E; [|lia].
  destruct (found (bf s)) eqn:Hf, (found (bf s')) eqn:Hf'; cbn.
  - apply IH.
  - apply IH.
  - rewrite found_flips_set by done. lia.
  - apply IH.
Qed.

End LockFacts.

(** * The claims about the shared flags *)

(** C5: in every execution [self.found] changes from [False] to [True] at
    most once; neither [self.found] nor [self.shutdown] is ever cleared;
    [self.found] is set only by line 45 of the signal handler or by line
    149 of a worker, which a worker reaches only after a successful probe;
    the handler starts on the delivery of a signal only, and sets
    [self.shutdown] and [self.found] within one lock-protected region:
    when the lock is free again both are set, and while it is held no
    other thread assigns a field that the lock guards. *)
Theorem C5_found_shutdown_flags (a : args.t) (charset : string) :
  (forall ls s, found_flips a charset ls s <= 1) /\
  (forall l s s', exec a charset l s = Some s' ->
     (found (bf s) = true -> found (bf s') = true) /\
     (shutdown (bf s) = true -> shutdown (bf s') = true)) /\
  (forall l s s', exec a charset l s = Some s' ->
     found (bf s) = false -> found (bf s') = true ->
     (l = Handler /\ handler s = SigSetFound) \/
     (exists i att now jitter password,
        l = Worker i att now jitter /\ workers s !! i = Some (WSuccess password))) /\
  (forall l s s' i password, exec a charset l s = Some s' ->
     workers s' !! i = Some (WSuccess password) ->
     workers s !! i = Some (WSuccess password) \/
     (exists att now jitter,
        l = Worker i att now jitter /\ workers s !! i = Some (WConnect password) /\
        classify att = Success)) /\
  (forall l s s', exec a charset l s = Some s' ->
     handler s = SigIdle -> handler s' <> SigIdle -> l = Interrupt) /\
  (forall s, handler s = SigIdle ->
     exists s1, exec a charset Interrupt s = Some s1 /\
                handler s1 = SigSetShutdown /\ lock_held s1 = true) /\
  (forall ls s s', handler s = SigSetShutdown ->
     exec_all a charset ls s = Some s' -> lock_held s' = false ->
     shutdown (bf s') = true /\ found (bf s') = true) /\
  (forall l s s', lock_held s = true -> exec a charset l s = Some s' -> l <> Handler ->
     locked_fields (bf s') = locked_fields (bf s)).
Proof.
  split; [apply found_flips_le|].
  split; [intros l s s' H; split; [by eapply exec_found_mono|by eapply exec_shutdown_mono]|].
  split; [apply exec_found_set|].
  split; [apply exec_enters_success|].
  split; [apply exec_interrupt_idle|].
  split.
  { intros s Hidle. eexists. cbn. unfold interrupt_exec. rewrite Hidle. done. }
  split; [|apply exec_locked_frame].
  intros ls s s' Hacq Hrun Hfree.
  assert (handler_progress s') as Hp.
  { eapply exec_all_handler_progress; [done|]. by left. }
  unfold lock_held in Hfree.
  destruct Hp as [E|[[E _]|?]]; [by rewrite E in Hfree|by rewrite E in Hfree|done].
Qed.

Lemma C5_found_shutdown_flags_witness :
  let a := args.mk "10.0.0.1" "root" 3 false false true "" in
  let s := set_handler SigSetShutdown (init_state 0%float) in
  exists s',
    exec_all a (build_charset a) [Handler; Handler; Handler] s = Some s' /\
    shutdown (bf s') = true /\ found (bf s') = true.
Proof.
  intros a s. eexists. split; [reflexivity|].
  apply (proj1 (proj2 (proj2 (proj2 (proj2 (proj2 (proj2
           (C5_found_shutdown_flags a (build_charset a))))))))
           [Handler; Handler; Handler] s); reflexivity.
Defined.

(** * Facts about the work queue *)

Lemma put_nowait_Some (item : string) (q q' : Queue.t) :
  Queue.put_nowait item q = Some q' ->
  Queue.items q' = Queue.items q ++ [item] /\ Queue.qsize q < Queue.maxsize.
Proof.
  unfold Queue.put_nowait. destruct (Nat.leb_spec Queue.maxsize (Queue.qsize q)); [done|].
  intros [= <-]. done.
Qed.

Lemma get_nowait_Some (item : string) (q q' : Queue.t) :
  Queue.get_nowait q = Some (item, q') -> Queue.items q = item :: Queue.items q'.
Proof.
  unfold Queue.get_nowait. destruct (Queue.items q); [done|]. by intros [= <- <-].
Qed.

Lemma task_done_items (q q' : Queue.t) :
  Queue.task_done q = Some q' -> Queue.items q' = Queue.items q.
Proof.
  unfold Queue.task_done. destruct (Queue.unfinished_tasks q); [done|]. by intros [= <-].
Qed.

Ltac queue_facts :=
  repeat match goal with
  | H : Queue.put_nowait _ _ = Some _ |- _ => apply put_nowait_Some in H as [? ?]
  | H : Queue.get_nowait _ = Some _ |- _ => apply get_nowait_Some in H
  | H : Queue.task_done _ = Some _ |- _ => apply task_done_items in H
  | H : (_ <? _)%nat = true |- _ => apply Nat.ltb_lt in H
  | H : (_ <? _)%nat = false |- _ => apply Nat.ltb_ge in H
  | H : _ && _ = true |- _ => apply andb_true_iff in H as [? ?]
  end.

Section QueueFacts.
Variable a : args.t.
Variable charset : string.

(** A step removes items from the front of the queue or appends one. *)
Lemma exec_queue_items l s s' :
  exec a charset l s = Some s' ->
  (exists n, Queue.items (queue (bf s')) = drop n (Queue.items (queue (bf s)))) \/
  (l = Control /\ (control s = CFillPut \/ control s = CPollPut) /\
   exists pwd,
     gen_next a charset (shutdown (bf s)) (gen s) = (Yield pwd, gen s') /\
     Queue.items (queue (bf s')) = Queue.items (queue (bf s)) ++ [pwd]).
Proof.
  intros H. exec_inv H; queue_facts; cbn in *.
  all: try (left; exists 0; by rewrite drop_0).
  all: try (right; split; [done|]; split; [by auto|]; eexists; split; [done|]; done).
  all: try (left; exists 0; rewrite drop_0; congruence).
  - left. exists 1. match goal with E : Queue.items _ = _ :: _ |- _ => rewrite E end. done.
  - try_connect_frame_of Hfr. destruct Hfr as (_ & _ & -> & _).
    left. exists 0. by rewrite drop_0.
  - try_connect_frame_of Hfr. destruct Hfr as (_ & _ & -> & _).
    left. exists 0. by rewrite drop_0.
Qed.

Lemma exec_queue_inv l s s' :
  exec a charset l s = Some s' -> queue_inv s -> queue_inv s'.
Proof.
  intros H (Hmax & Hfill & Hpoll).
  destruct (exec_queue_items l s s' H) as [[n Hn]|(-> & Hc & pwd & _ & Hpush)].
  - assert (Queue.qsize (queue (bf s')) <= Queue.qsize (queue (bf s))) as Hle.
    { unfold Queue.qsize. rewrite Hn, length_drop. lia. }
    unfold queue_inv.
    destruct l as [| | |i att now jitter].
    + cbn in H. unfold control_exec in H.
      repeat case_match; simplify_eq; queue_facts; cbn in *;
        (split; [lia|]); (split; intros; (done || lia)).
    + cbn in H. unfold interrupt_exec in H. repeat case_match; simplify_eq; cbn in *; auto.
    + cbn in H. unfold handler_exec in H. repeat case_match; simplify_eq; cbn in *; auto.
    + assert (control s' = control s) as ->.
      { cbn in H. unfold worker_exec, worker_task_done in H.
        repeat case_match; simplify_eq; done. }
      split; [lia|]. split; intros Hc; [specialize (Hfill Hc)|specialize (Hpoll Hc)]; lia.
  - assert (Queue.qsize (queue (bf s')) = S (Queue.qsize (queue (bf s)))) as Hlen.
    { unfold Queue.qsize. rewrite Hpush, length_app. cbn. lia. }
    assert (control s' = CFill \/ control s' = CPollSleep) as Hc'.
    { cbn in H. unfold control_exec in H.
      destruct Hc as [Hc|Hc]; rewrite Hc in H;
        repeat case_match; simplify_eq; cbn in *; auto; lia. }
    unfold queue_inv. rewrite Hlen.
    split; [destruct Hc as [Hc|Hc]; [specialize (Hfill Hc)|specialize (Hpoll Hc)]; lia|].
    split; intros E; destruct Hc' as [E'|E']; congruence.
Qed.

Lemma reachable_queue_inv s : reachable a charset s -> queue_inv s.
Proof.
  intros (now & ls & Hrun).
  assert (queue_inv (init_state now)) as Hinit.
  { unfold queue_inv. cbn. split; [lia|]. split; intros; (done || lia). }
  revert Hrun Hinit. generalize (init_state now). clear now.
  induction ls as [|l ls IH]; intros s0 Hrun Hinv; cbn in Hrun.
  - by simplify_eq.
  - destruct (exec a charset l s0) as [s1|] eqn:E; [|done].
    eauto using exec_queue_inv.
Qed.

(** Once the refill loop is left, it is never entered again and nothing
    is put on the queue any more. *)
Lemma exec_after_refill l s s' :
  exec a charset l s = Some s' -> after_refill (control s) = true ->
  after_refill (control s') = true /\
  exists n, Queue.items (queue (bf s')) = drop n (Queue.items (queue (bf s))).
Proof.
  intros H Hafter. split.
  - exec_inv H; cbn in *; done.
  - destruct (exec_queue_items l s s' H) as [?|(_ & [Hc|Hc] & _)]; [done| |];
      by rewrite Hc in Hafter.
Qed.

Lemma exec_all_after_refill ls s s' :
  exec_all a charset ls s = Some s' -> after_refill (control s) = true ->
  after_refill (control s') = true /\
  exists n, Queue.items (queue (bf s')) = drop n (Queue.items (queue (bf s))).
Proof.
  revert s. induction ls as [|l ls IH]; intros s H Hafter; cbn in H.
  - simplify_eq. split; [done|]. exists 0. by rewrite drop_0.
  - destruct (exec a charset l s) as [s1|] eqn:E; [|done].
    destruct (exec_after_refill l s s1 E Hafter) as [Hafter1 [n1 Hn1]].
    destruct (IH s1 H Hafter1) as [Hafter' [n Hn]].
    split; [done|]. exists (n1 + n). by rewrite Hn, Hn1, drop_drop.
Qed.

End QueueFacts.

(** * The statements of the refill loop, one by one *)

Section Refill.
Variable a : args.t.
Variable charset : string.

Lemma exec_all_step l ls s s1 :
  exec a charset l s = Some s1 ->
  exec_all a charset (l :: ls) s = exec_all a charset ls s1.
Proof. intros H. cbn. by rewrite H. Qed.

(** Line 187. *)
Lemma poll_test s :
  control s = CPoll -> handler s = SigIdle ->
  exec a charset Control s =
    Some (set_control (if negb (shutdown (bf s)) && negb (found (bf s))
                       then CPollCheck else CCleanup) s).
Proof.
  intros Hc Hidle. cbn [exec]. unfold control_exec, handler_idle. rewrite Hidle, Hc.
  cbn [negb]. by destruct (negb (shutdown (bf s)) && negb (found (bf s))).
Qed.

(** Line 189. *)
Lemma poll_check s :
  control s = CPollCheck -> handler s = SigIdle ->
  exec a charset Control s =
    Some (set_control (if (Queue.qsize (queue (bf s)) <? 500)%nat
                       then CPollPut else CPollSleep) s).
Proof.
  intros Hc Hidle. cbn [exec]. unfold control_exec, handler_idle. rewrite Hidle, Hc.
  cbn [negb]. by destruct (Queue.qsize (queue (bf s)) <? 500)%nat.
Qed.

(** Line 191 with a generator that yields: below the capacity the [put]
    succeeds. *)
Lemma poll_put s pwd g' :
  control s = CPollPut -> handler s = SigIdle ->
  Queue.qsize (queue (bf s)) < Queue.maxsize ->
  gen_next a charset (shutdown (bf s)) (gen s) = (Yield pwd, g') ->
  exec a charset Control s =
    Some (set_control CPollSleep
            (set_bf (set_queue (Queue.mk (Queue.items (queue (bf s)) ++ [pwd])
                                  (S (Queue.unfinished_tasks (queue (bf s)))))
                       (bf s))
               (set_gen g' s))).
Proof.
  intros Hc Hidle Hq Hnext. cbn [exec]. unfold control_exec, handler_idle.
  rewrite Hidle, Hc, Hnext. cbn [negb bf set_gen]. unfold Queue.put_nowait.
  destruct (Nat.leb_spec Queue.maxsize (Queue.qsize (queue (bf s)))); [lia|done].
Qed.

(** Line 194. *)
Lemma poll_sleep s :
  control s = CPollSleep -> handler s = SigIdle ->
  exec a charset Control s = Some (set_control CPoll (emit [Sleep POLL_INTERVAL] s)).
Proof.
  intros Hc Hidle. cbn [exec]. unfold control_exec, handler_idle. by rewrite Hidle, Hc.
Qed.

(** One pass of the loop with fewer than 500 candidates queued and a
    generator that yields. *)
Lemma poll_iteration_push s pwd g' :
  control s = CPoll -> handler s = SigIdle ->
  shutdown (bf s) = false -> found (bf s) = false ->
  Queue.qsize (queue (bf s)) < 500 ->
  gen_next a charset false (gen s) = (Yield pwd, g') ->
  exec_all a charset [Control; Control; Control; Control] s =
    Some (set_control CPoll
            (emit [Sleep POLL_INTERVAL]
               (set_bf (set_queue (Queue.mk (Queue.items (queue (bf s)) ++ [pwd])
                                     (S (Queue.unfinished_tasks (queue (bf s)))))
                          (bf s))
                  (set_gen g' s)))).
Proof.
  intros Hc Hidle Hsd Hf Hq Hnext.
  rewrite (exec_all_step _ _ _ _ (poll_test s Hc Hidle)), Hsd, Hf. cbn [negb andb].
  rewrite (exec_all_step _ _ _ _ (poll_check (set_control CPollCheck s) eq_refl Hidle)).
  cbn [bf set_control].
  destruct (Nat.ltb_spec (Queue.qsize (queue (bf s))) 500) as [_|?]; [|lia].
  rewrite (exec_all_step _ _ _ _
             (poll_put (set_control CPollPut (set_control CPollCheck s)) pwd g'
                eq_refl Hidle ltac:(cbn [bf set_control]; unfold Queue.maxsize; lia)
                ltac:(cbn [bf gen set_control]; by rewrite Hsd))).
  erewrite exec_all_step; [|apply poll_sleep; [reflexivity|exact Hidle]].
  reflexivity.
Qed.

(** One pass of the loop with 500 or more candidates queued. *)
Lemma poll_iteration_idle s :
  control s = CPoll -> handler s = SigIdle ->
  shutdown (bf s) = false -> found (bf s) = false ->
  500 <= Queue.qsize (queue (bf s)) ->
  exec_all a charset [Control; Control; Control] s =
    Some (set_control CPoll (emit [Sleep POLL_INTERVAL] s)).
Proof.
  intros Hc Hidle Hsd Hf Hq.
  rewrite (exec_all_step _ _ _ _ (poll_test s Hc Hidle)), Hsd, Hf. cbn [negb andb].
  rewrite (exec_all_step _ _ _ _ (poll_check (set_control CPollCheck s) eq_refl Hidle)).
  cbn [bf set_control].
  destruct (Nat.ltb_spec (Queue.qsize (queue (bf s))) 500) as [?|_]; [lia|].
  erewrite exec_all_step; [|apply poll_sleep; [reflexivity|exact Hidle]].
  reflexivity.
Qed.

End Refill.

(** * The claims about the work queue *)

(** C6: in every reachable state the queue holds at most 5000 candidates;
    a step of the refill loop that makes the queue longer is the [put] of
    line 191, taken with fewer than 500 items queued, appending exactly the
    one candidate that the generator yielded, and followed by the sleep of
    line 194, which lasts the poll interval and leads back to the loop
    test; when the generator reports exhaustion at line 191 the loop is
    left for good: from then on nothing is put on the queue. And the loop
    does refill: its test sends the control thread to the size check as
    long as neither flag is set, the check sends it to the [put] exactly
    when fewer than 500 candidates are queued, the [put] of a yielded
    candidate always succeeds in a reachable state, so that one pass of
    the loop below 500 appends exactly one candidate and sleeps the poll
    interval once, and one pass at 500 or more only sleeps. *)
Theorem C6_bounded_queue_and_refill (a : args.t) (charset : string) :
  (forall s, reachable a charset s -> Queue.qsize (queue (bf s)) <= Queue.maxsize) /\
  (forall s l s',
     reachable a charset s -> steady (control s) = true ->
     exec a charset l s = Some s' ->
     Queue.qsize (queue (bf s)) < Queue.qsize (queue (bf s')) ->
     l = Control /\ control s = CPollPut /\
     Queue.qsize (queue (bf s)) < 500 /\
     (exists pwd,
        gen_next a charset (shutdown (bf s)) (gen s) = (Yield pwd, gen s') /\
        Queue.items (queue (bf s')) = Queue.items (queue (bf s)) ++ [pwd]) /\
     control s' = CPollSleep) /\
  (forall s, control s = CPollSleep -> handler s = SigIdle ->
     exec a charset Control s = Some (set_control CPoll (emit [Sleep POLL_INTERVAL] s))) /\
  (forall s s' g, control s = CPollPut ->
     gen_next a charset (shutdown (bf s)) (gen s) = (StopIteration, g) ->
     exec a charset Control s = Some s' ->
     control s' = CCleanup /\ queue (bf s') = queue (bf s)) /\
  (forall ls s s', after_refill (control s) = true ->
     exec_all a charset ls s = Some s' ->
     after_refill (control s') = true /\
     exists n, Queue.items (queue (bf s')) = drop n (Queue.items (queue (bf s)))) /\
  (forall s, control s = CPoll -> handler s = SigIdle ->
     exec a charset Control s =
       Some (set_control (if negb (shutdown (bf s)) && negb (found (bf s))
                          then CPollCheck else CCleanup) s)) /\
  (forall s, control s = CPollCheck -> handler s = SigIdle ->
     exec a charset Control s =
       Some (set_control (if (Queue.qsize (queue (bf s)) <? 500)%nat
                          then CPollPut else CPollSleep) s)) /\
  (forall s pwd g',
     reachable a charset s -> control s = CPollPut -> handler s = SigIdle ->
     gen_next a charset (shutdown (bf s)) (gen s) = (Yield pwd, g') ->
     exec a charset Control s =
       Some (set_control CPollSleep
               (set_bf (set_queue (Queue.mk (Queue.items (queue (bf s)) ++ [pwd])
                                     (S (Queue.unfinished_tasks (queue (bf s)))))
                          (bf s))
                  (set_gen g' s)))) /\
  (forall s pwd g',
     control s = CPoll -> handler s = SigIdle ->
     shutdown (bf s) = false -> found (bf s) = false ->
     Queue.qsize (queue (bf s)) < 500 ->
     gen_next a charset false (gen s) = (Yield pwd, g') ->
     exists s',
       exec_all a charset [Control; Control; Control; Control] s = Some s' /\
       control s' = CPoll /\ gen s' = g' /\
       Queue.items (queue (bf s')) = Queue.items (queue (bf s)) ++ [pwd] /\
       output s' = output s ++ [Sleep POLL_INTERVAL] /\
       workers s' = workers s /\ locked_fields (bf s') = locked_fields (bf s)) /\
  (forall s,
     control s = CPoll -> handler s = SigIdle ->
     shutdown (bf s) = false -> found (bf s) = false ->
     500 <= Queue.qsize (queue (bf s)) ->
     exec_all a charset [Control; Control; Control] s =
       Some (set_control CPoll (emit [Sleep POLL_INTERVAL] s))).
Proof.
  split; [|split; [|split; [|split; [|split; [|split; [|split; [|split; [|split]]]]]]]].
  - intros s Hr. destruct (reachable_queue_inv a charset s Hr) as [H _].
    unfold Queue.maxsize. lia.
  - intros s l s' Hr Hsteady H Hgrow.
    destruct (reachable_queue_inv a charset s Hr) as (_ & _ & Hpoll).
    destruct (exec_queue_items a charset l s s' H) as [[n Hn]|(-> & Hc & Hpush)].
    { unfold Queue.qsize in Hgrow. rewrite Hn, length_drop in Hgrow. lia. }
    destruct Hc as [Hc|Hc]; [by rewrite Hc in Hsteady|].
    split; [done|]. split; [done|]. split; [by apply Hpoll|]. split; [done|].
    destruct Hpush as (pwd & Hnext & _).
    cbn in H. unfold control_exec in H. rewrite Hc in H.
    destruct (gen_next a charset _ (gen s)) as [r g'] eqn:E.
    assert (r = Yield pwd) as -> by congruence. clear Hnext.
    unfold Queue.qsize in *.
    repeat case_match; simplify_eq; cbn in *; (done || lia).
  - intros s Hc Hidle. cbn. unfold control_exec, handler_idle. by rewrite Hidle, Hc.
  - intros s s' g Hc Hnext H. cbn in H. unfold control_exec in H.
    rewrite Hc, Hnext in H. repeat case_match; simplify_eq; done.
  - intros ls s s' Hafter H. by eapply exec_all_after_refill.
  - apply poll_test.
  - apply poll_check.
  - intros s pwd g' Hr Hc Hidle Hnext.
    destruct (reachable_queue_inv a charset s Hr) as (_ & _ & Hpoll).
    specialize (Hpoll Hc). apply poll_put; [done|done| |done].
    unfold Queue.maxsize. lia.
  - intros s pwd g' Hc Hidle Hsd Hf Hq Hnext. eexists. split.
    + by apply poll_iteration_push.
    + done.
  - apply poll_iteration_idle.
Qed.

(** A run that reaches the refill loop with 499 candidates queued: the
    digits charset with length 3 gives 1009 candidates, the initial fill
    queues 1000 of them, and one worker has 501 of them rejected; the next
    pass of the loop queues the candidate "991". *)
Lemma C6_bounded_queue_and_refill_witness :
  let a := args.mk "10.0.0.1" "root" 3 false false true "" in
  let w := Worker 0 (Connected 0.25%float (Some AuthenticationException)) 1%float 0%float in
  let ls := replicate 2002 Control ++ replicate 3006 w in
  exists s,
    exec_all a (build_charset a) ls (init_state 0%float) = Some s /\
    control s = CPoll /\
    Queue.qsize (queue (bf s)) = 499 /\
    attempts (bf s) = 501 /\
    Queue.qsize (queue (bf s)) <= Queue.maxsize /\
    exists s',
      exec_all a (build_charset a) [Control; Control; Control; Control] s = Some s' /\
      control s' = CPoll /\ gen s' = GenProduct (drop 992 (product_list
                                 (list_ascii_of_string (build_charset a)) 3)) /\
      Queue.items (queue (bf s')) = Queue.items (queue (bf s)) ++ ["991"] /\
      output s' = output s ++ [Sleep POLL_INTERVAL] /\
      workers s' = workers s /\ locked_fields (bf s') = locked_fields (bf s).
Proof.
  intros a w ls. eexists. split; [vm_compute; reflexivity|].
  split; [reflexivity|]. split; [reflexivity|]. split; [reflexivity|].
  split.
  - apply (proj1 (C6_bounded_queue_and_refill a (build_charset a))).
    exists 0%float, ls. vm_compute. reflexivity.
  - eapply (proj1 (proj2 (proj2 (proj2 (proj2 (proj2 (proj2 (proj2 (proj2
              (C6_bounded_queue_and_refill a (build_charset a))))))))))).
    + reflexivity.
    + reflexivity.
    + reflexivity.
    + reflexivity.
    + vm_compute. lia.
    + vm_compute. reflexivity.
Defined.

(** * Facts about the attempt counter *)

Lemma count_workers_insert f ws i old new :
  ws !! i = Some old ->
  count_workers f (<[i := new]> ws) + (if f old then 1 else 0) =
  count_workers f ws + (if f new then 1 else 0).
Proof.
  revert i. induction ws as [|pc ws IH]; intros [|i] H; try done.
  - cbn in H. simplify_eq. change (<[0:=new]> (old :: ws)) with (new :: ws).
    cbn [count_workers]. lia.
  - cbn in H. change (<[S i:=new]> (pc :: ws)) with (pc :: <[i:=new]> ws).
    cbn [count_workers]. specialize (IH i H). lia.
Qed.

Lemma count_workers_replicate f n : f WLoop = false -> count_workers f (replicate n WLoop) = 0.
Proof. intros Hf. induction n as [|n IH]; [done|]. cbn. by rewrite Hf, IH. Qed.

Lemma count_workers_pos f ws i pc :
  ws !! i = Some pc -> f pc = true -> 0 < count_workers f ws.
Proof.
  revert i. induction ws as [|pc' ws IH]; intros [|i] H Hf; try done.
  - cbn in H. simplify_eq. cbn. rewrite Hf. lia.
  - cbn in H. cbn. specialize (IH i H Hf). lia.
Qed.

Lemma try_connect_false (att : attempt) (now jitter : float) (self self' : BruteForcer) evs :
  try_connect att now jitter self = (false, self', evs) -> classify att <> Success.
Proof.
  unfold try_connect, classify. by destruct (attempt_raised att) as [[| | |]|].
Qed.

Section AttemptFacts.
Variable a : args.t.
Variable charset : string.

(** One step: [attempts] grows exactly when a worker executes line 155,
    and a worker is about to do so exactly after a [try_connect] that
    returned [False]. *)
Lemma exec_attempts l s s' :
  (before_start (control s) = true -> workers s = []) ->
  exec a charset l s = Some s' ->
  attempts (bf s') + count_workers counting (workers s') =
    attempts (bf s) + count_workers counting (workers s) + connects a charset true [l] s /\
  (before_start (control s') = true -> workers s' = []).
Proof.
  intros Hnone H. cbn [connects]. rewrite H.
  destruct l as [| | |i att now jitter].
  - cbn in H. unfold control_exec in H.
    repeat case_match; simplify_eq; cbn in *; try (split; [lia|by auto]).
    rewrite Hnone by done. cbn. split; [|done].
    match goal with |- context [replicate ?n WLoop] =>
      rewrite (count_workers_replicate counting n) by done end. lia.
  - cbn in H. unfold interrupt_exec in H.
    repeat case_match; simplify_eq; cbn in *; split; (lia || auto).
  - cbn in H. unfold handler_exec in H.
    repeat case_match; simplify_eq; cbn in *; split; (lia || auto).
  - cbn in H. unfold worker_exec, worker_task_done in H.
    destruct (workers s !! i) as [pc|] eqn:Hpc; [|done].
    assert (before_start (control s) = false) as Hstarted.
    { destruct (before_start (control s)); [|done]. by rewrite Hnone in Hpc. }
    assert (control s' = control s) as Hctl by (repeat case_match; simplify_eq; done).
    split; [|by rewrite Hctl, Hstarted].
    repeat case_match; simplify_eq; cbn in *.
    all: match goal with
         | Hw : workers ?s0 !! ?j = Some _ |- context [insert ?j ?new (workers ?s0)] =>
             pose proof (count_workers_insert counting (workers s0) j _ new Hw) as Hins
         end.
    all: cbn in Hins; try lia.
    all: try_connect_frame_of Hfr; destruct Hfr as (_ & _ & _ & Hatt & _).
    all: match goal with
         | E : try_connect _ _ _ _ = (true, _, _) |- _ =>
             apply try_connect_true in E as [? _]
         | E : try_connect _ _ _ _ = (false, _, _) |- _ =>
             apply try_connect_false in E
         end.
    all: (congruence || lia).
Qed.

(** The value of [attempts]: every [try_connect] that returned [False]
    is counted once, as soon as its worker has executed line 155, and
    nothing else is counted. *)
Lemma attempts_count_failures now ls s :
  exec_all a charset ls (init_state now) = Some s ->
  attempts (bf s) + count_workers counting (workers s) = connects a charset true ls (init_state now).
Proof.
  assert (forall s0, (before_start (control s0) = true -> workers s0 = []) ->
            exec_all a charset ls s0 = Some s ->
            attempts (bf s) + count_workers counting (workers s) =
            attempts (bf s0) + count_workers counting (workers s0) + connects a charset true ls s0)
    as Hgen.
  { induction ls as [|l ls IH]; intros s0 Hnone H; cbn in H.
    - simplify_eq. cbn. lia.
    - destruct (exec a charset l s0) as [s1|] eqn:E; [|done].
      destruct (exec_attempts l s0 s1 Hnone E) as [Hstep Hnone1].
      rewrite (IH s1 Hnone1 H), Hstep. cbn [connects]. rewrite E. lia. }
  intros H. rewrite (Hgen (init_state now)); [done|done|done].
Qed.

End AttemptFacts.

(** * The claim about the attempt counter *)

(** C4, the run that shows the defect: the charset is "x" and the length 1,
    so the only candidate is "x"; one worker dequeues it, the probe
    succeeds, and the run ends. [try_connect] ran on one candidate, yet
    [attempts] is still 0 and the summary reports 0 attempts: the [return]
    of line 152 leaves the worker before the increment of line 155. *)
Theorem C4_success_is_not_counted :
  let a := args.mk "10.0.0.1" "root" 1 false false false "x" in
  let w := Worker 0 (Connected 0.25%float None) 1%float 0%float in
  let ls := [Control; Control; Control; Control; Control;
             w; w; w; w; w;
             Control; Control; Control; Control; Control] in
  exists s,
    exec_all a (build_charset a) ls (init_state 0%float) = Some s /\
    control s = CDone /\ workers s = [WReturn] /\
    Queue.items (queue (bf s)) = [] /\
    connects a (build_charset a) false ls (init_state 0%float) = 1 /\
    connects a (build_charset a) true ls (init_state 0%float) = 0 /\
    attempts (bf s) = 0 /\
    output s = [Sleep 0.25%float; Print (MsgSuccess "root" "x"); Print (MsgFinished 0 0)].
Proof.
  intros a w ls. eexists. split; [vm_compute; reflexivity|].
  repeat split; vm_compute; reflexivity.
Qed.

(** * Facts about the tasks in flight *)

Section TaskFacts.
Variable a : args.t.
Variable charset : string.

Lemma exec_all_app ls1 ls2 s :
  exec_all a charset (ls1 ++ ls2) s =
  exec_all a charset ls1 s ≫= exec_all a charset ls2.
Proof.
  revert s. induction ls1 as [|l ls1 IH]; intros s; cbn; [done|].
  destruct (exec a charset l s); [apply IH|done].
Qed.

Lemma reachable_exec l s s' :
  reachable a charset s -> exec a charset l s = Some s' -> reachable a charset s'.
Proof.
  intros (now & ls & Hrun) H. exists now, (ls ++ [l]).
  rewrite exec_all_app, Hrun. cbn. by rewrite H.
Qed.

Lemma exec_tasks_inv l s s' :
  exec a charset l s = Some s' -> tasks_inv s -> tasks_inv s'.
Proof.
  intros H [Hnone Htasks]. unfold tasks_inv.
  destruct l as [| | |i att now jitter].
  - cbn in H. unfold control_exec, Queue.put_nowait in H. unfold Queue.qsize in *.
    repeat case_match; simplify_eq; cbn in *; try (split; [by auto|lia]).
    + split; [by auto|]. rewrite length_app. cbn. lia.
    + split; [done|]. rewrite Hnone in Htasks by done.
      match goal with |- context [replicate ?n WLoop] =>
        rewrite (count_workers_replicate holding n) by done end. cbn in Htasks. lia.
    + split; [done|]. rewrite length_app. cbn. lia.
  - cbn in H. unfold interrupt_exec in H. repeat case_match; simplify_eq; cbn in *; auto.
  - cbn in H. unfold handler_exec in H. repeat case_match; simplify_eq; cbn in *; auto.
  - cbn in H. unfold worker_exec, worker_task_done in H.
    destruct (workers s !! i) as [pc|] eqn:Hpc; [|done].
    assert (before_start (control s) = false) as Hstarted.
    { destruct (before_start (control s)); [|done]. by rewrite Hnone in Hpc. }
    assert (control s' = control s) as Hctl by (repeat case_match; simplify_eq; done).
    split; [by rewrite Hctl, Hstarted|].
    unfold Queue.get_nowait, Queue.task_done, Queue.qsize in *.
    repeat case_match; simplify_eq; cbn in *.
    all: try match goal with
         | Hw : workers ?s0 !! ?j = Some ?old |- _ =>
             pose proof (count_workers_pos holding (workers s0) j old Hw eq_refl) as Hpos
         end.
    all: match goal with
         | Hw : workers ?s0 !! ?j = Some _ |- context [insert ?j ?new (workers ?s0)] =>
             pose proof (count_workers_insert holding (workers s0) j _ new Hw) as Hins
         end.
    all: cbn in Hins.
    all: try (try_connect_frame_of Hfr; destruct Hfr as (_ & _ & Hq & _); rewrite Hq).
    all: repeat match goal with E : Queue.items _ = _ |- _ => rewrite E in * end.
    all: cbn in *; lia.
Qed.

Lemma reachable_tasks_inv s : reachable a charset s -> tasks_inv s.
Proof.
  intros (now & ls & Hrun).
  assert (tasks_inv (init_state now)) as Hinit by (by split).
  revert Hrun Hinit. generalize (init_state now). clear now.
  induction ls as [|l ls IH]; intros s0 Hrun Hinv; cbn in Hrun.
  - by simplify_eq.
  - destruct (exec a charset l s0) as [s1|] eqn:E; [|done].
    eauto using exec_tasks_inv.
Qed.

(** After a [try_connect] that returned [False] the worker counts the
    attempt, marks the task done and is back at the head of its loop. *)
Lemma worker_counts_and_loops s i password att now jitter :
  reachable a charset s ->
  workers s !! i = Some (WCount password) ->
  lock_held s = false ->
  exists s1 s2,
    exec a charset (Worker i att now jitter) s = Some s1 /\
    exec a charset (Worker i att now jitter) s1 = Some s2 /\
    workers s2 !! i = Some WLoop /\
    attempts (bf s2) = attempts (bf s) + 1 /\
    found (bf s2) = found (bf s) /\ shutdown (bf s2) = shutdown (bf s) /\
    connection_errors (bf s2) = connection_errors (bf s) /\
    consecutive_errors (bf s2) = consecutive_errors (bf s) /\
    last_error_time (bf s2) = last_error_time (bf s).
Proof.
  intros Hr Hpc Hlock.
  assert (i < List.length (workers s)) as Hi by (by eapply lookup_lt_Some).
  assert (exists s1, exec a charset (Worker i att now jitter) s = Some s1 /\
                     workers s1 = <[i := WTaskDone]> (workers s) /\
                     attempts (bf s1) = attempts (bf s) + 1 /\
                     found (bf s1) = found (bf s) /\ shutdown (bf s1) = shutdown (bf s) /\
                     connection_errors (bf s1) = connection_errors (bf s) /\
                     consecutive_errors (bf s1) = consecutive_errors (bf s) /\
                     last_error_time (bf s1) = last_error_time (bf s))
    as (s1 & H1 & Hw1 & Ha1 & Hf1 & Hs1 & Hc1 & Hn1 & Ht1).
  { cbn. unfold worker_exec. rewrite Hpc, Hlock.
    destruct (PrimFloat.ltb _ _); eexists; (split; [reflexivity|done]). }
  pose proof (reachable_tasks_inv s1 (reachable_exec _ _ _ Hr H1)) as [_ Htasks].
  assert (workers s1 !! i = Some WTaskDone) as Hpc1.
  { rewrite Hw1. by apply list_lookup_insert_eq. }
  pose proof (count_workers_pos holding (workers s1) i WTaskDone Hpc1 eq_refl) as Hpos.
  exists s1. cbn. unfold worker_exec, worker_task_done. rewrite Hpc1.
  unfold Queue.task_done.
  destruct (Queue.unfinished_tasks (queue (bf s1))) as [|n] eqn:Eu; [lia|].
  eexists. split; [done|]. split; [reflexivity|]. cbn. split; [|done].
  apply list_lookup_insert_eq. rewrite Hw1, length_insert. done.
Qed.

End TaskFacts.

(** * The claims about rejected and unexpected outcomes *)



(** C8: on an exception that is neither an SSH nor a socket error
    [try_connect] returns [False] and leaves the whole shared state as it
    was, [connection_errors], [consecutive_errors] and [last_error_time]
    included; it only prints the error, without any sleep on top of the
    attempt's own pre-connect delay; and the worker that made the attempt
    goes on: it counts the attempt, marks the task done and is back at the
    head of its loop. *)
Theorem C8_unexpected_error
    (att : attempt) (msg : string) (current_time jitter : float) (self : BruteForcer) :
  classify att = UnexpectedError msg ->
  try_connect att current_time jitter self =
    (false, self, attempt_events att ++ [Print (MsgUnexpected msg)]) /\
  forall a charset s i password,
    reachable a charset s ->
    bf s = self ->
    workers s !! i = Some (WConnect password) ->
    lock_held s = false ->
    exists s1 s2 s3,
      exec a charset (Worker i att current_time jitter) s = Some s1 /\
      bf s1 = self /\
      output s1 = output s ++ attempt_events att ++ [Print (MsgUnexpected msg)] /\
      workers s1 !! i = Some (WCount password) /\
      exec a charset (Worker i att current_time jitter) s1 = Some s2 /\
      exec a charset (Worker i att current_time jitter) s2 = Some s3 /\
      workers s3 !! i = Some WLoop /\
      locked_fields (bf s3) =
        (found self, shutdown self, attempts self + 1, last_print (bf s3),
         connection_errors self, consecutive_errors self, last_error_time self).
Proof.
  intros Hcls.
  assert (attempt_raised att = Some (OtherException msg)) as Hr.
  { unfold classify in Hcls.
    destruct (attempt_raised att) as [[| | |]|]; try done. by injection Hcls as ->. }
  assert (try_connect att current_time jitter self =
          (false, self, attempt_events att ++ [Print (MsgUnexpected msg)])) as Htc.
  { unfold try_connect. by rewrite Hr. }
  split; [done|].
  intros a charset s i password Hreach Hbf Hpc Hlock.
  assert (i < List.length (workers s)) as Hi by (by eapply lookup_lt_Some).
  set (s1 := set_worker i (WCount password)
               (emit (attempt_events att ++ [Print (MsgUnexpected msg)]) (set_bf self s))).
  assert (exec a charset (Worker i att current_time jitter) s = Some s1) as H1.
  { unfold exec, worker_exec, takes_lock. by rewrite Hpc, Hr, Hbf, Htc. }
  assert (workers s1 !! i = Some (WCount password)) as Hpc1.
  { cbn. by apply list_lookup_insert_eq. }
  destruct (worker_counts_and_loops a charset s1 i password att current_time jitter)
    as (s2 & s3 & H2 & H3 & Hloop & Hatt & Hf & Hs & Hc & Hn & Ht);
    [by eapply reachable_exec|done|done|].
  exists s1, s2, s3. repeat (split; [done|]).
  unfold locked_fields. rewrite Hatt, Hf, Hs, Hc, Hn, Ht. done.
Qed.

Lemma C8_unexpected_error_witness :
  let self := mkBruteForcer false false Queue.empty 7 0%float 0%float 4 2 100%float in
  try_connect (RaisedEarly (OtherException "boom")) 103%float 0.5%float self
  = (false, self, [Print (MsgUnexpected "boom")]).
Proof.
  exact (proj1 (C8_unexpected_error (RaisedEarly (OtherException "boom")) "boom"
                  103%float 0.5%float
                  (mkBruteForcer false false Queue.empty 7 0%float 0%float 4 2 100%float)
                  eq_refl)).
Defined.

(** * Further properties of the charset and of the generator *)

(** X1: [build_charset] never returns the empty string. Its result is
    either the caller's [--special] string, verbatim, which happens only
    when that string is not empty and none of [--upper], [--lower] and
    [--digits] is given, or one of the four built-in sets: the 26
    uppercase letters, the 26 lowercase letters, the 10 digits, or the
    default of lowercase letters, uppercase letters, digits and the eight
    characters [!@#$%^&*]; the characters of a built-in set are pairwise
    distinct. *)
Theorem X1_build_charset_nonempty (a : args.t) :
  build_charset a <> "" /\
  ((build_charset a = args.special a /\ args.special a <> "" /\
    args.upper a = false /\ args.lower a = false /\ args.digits a = false) \/
   (build_charset a ∈
      ["ABCDEFGHIJKLMNOPQRSTUVWXYZ";
       "abcdefghijklmnopqrstuvwxyz";
       "0123456789";
       "abcdefghijklmnopqrstuvwxyzABCDEFGHIJKLMNOPQRSTUVWXYZ0123456789!@#$%^&*"] /\
    NoDup (list_ascii_of_string (build_charset a)))).
Proof.
  unfold build_charset.
  destruct (args.upper a).
  { split; [done|right]. split; [|by apply (bool_decide_unpack _)].
    apply list_elem_of_In. cbn. auto. }
  destruct (args.lower a).
  { split; [done|right]. split; [|by apply (bool_decide_unpack _)].
    apply list_elem_of_In. cbn. auto. }
  destruct (args.digits a).
  { split; [done|right]. split; [|by apply (bool_decide_unpack _)].
    apply list_elem_of_In. cbn. auto. }
  destruct (args.special a) as [|c sp] eqn:E; cbn [truthy].
  - split; [done|right]. split; [|by apply (bool_decide_unpack _)].
    apply list_elem_of_In. cbn. auto 6.
  - split; [done|left]. by repeat split.
Qed.

Section GeneratorMore.
Variable a : args.t.
Variable charset : string.

(** Whatever the flag reads, the yields are an initial part of [pending]. *)
Lemma gen_calls_prefix sds g :
  yielded (gen_calls a charset sds g).1 `prefix_of` pending a charset g.
Proof.
  revert g. induction sds as [|sd sds IH]; intros g; cbn; [apply prefix_nil|].
  pose proof (gen_next_pending a charset sd g) as Hn.
  destruct (gen_next a charset sd g) as [r g'].
  specialize (IH g'). destruct (gen_calls a charset sds g') as [rs g'']. cbn in *.
  destruct r as [p| |]; cbn.
  - rewrite Hn. by apply prefix_cons.
  - subst g'. cbn in IH. unfold yielded in IH. etrans; [exact IH|apply prefix_nil].
  - subst g'. cbn in IH. unfold yielded in IH. etrans; [exact IH|apply prefix_nil].
Qed.

Lemma priority_items_length p :
  p ∈ priority_items a -> Z.of_nat (String.length p) = args.length a.
Proof.
  unfold priority_items, PRIORITY_PATTERNS.
  destruct (decide (args.length a = 3%Z)) as [->|Hne].
  - rewrite lookup_singleton_eq. cbn [default]. intros H.
    apply list_elem_of_In in H. cbn in H. intuition (subst; reflexivity).
  - rewrite lookup_singleton_ne by done. cbn. by intros H%elem_of_nil.
Qed.

(** With the flag set at every call the generator still runs through the
    priority patterns and then stops. *)
Lemma gen_calls_set_priority (n : nat) rest :
  yielded (gen_calls a charset (replicate n true) (GenPriority rest)).1 = take n rest.
Proof.
  revert rest. induction n as [|n IH]; intros rest; [done|].
  destruct rest as [|p rest].
  - cbn [replicate gen_calls gen_next priority_loop].
    assert (exists r, enter_product a charset true = (r, GenDone) /\
                      forall q, r <> Yield q) as (r & -> & Hr).
    { unfold enter_product. destruct (product _ _) as [[|t ts]|]; cbn; by eexists. }
    rewrite gen_calls_done. cbn [fst]. rewrite length_replicate.
    assert (yielded (replicate n StopIteration) = []) as Hstop.
    { clear. induction n as [|n IH]; [done|]. cbn. exact IH. }
    destruct r as [q| |]; [by destruct (Hr q)| |]; exact Hstop.
  - cbn [replicate gen_calls gen_next priority_loop]. specialize (IH rest).
    destruct (gen_calls a charset (replicate n true) (GenPriority rest)) as [rs g].
    cbn in *. unfold yielded in IH. by rewrite IH.
Qed.

End GeneratorMore.

(** X2: every candidate the generator yields, under any sequence of
    readings of the shutdown flag, has the requested length: the patterns
    listed for length 3 have three characters, and the enumeration builds
    strings of the requested length. *)
Theorem X2_candidates_have_requested_length
    (a : args.t) (charset : string) (sds : list bool) (p : string) :
  p ∈ yielded (gen_calls a charset sds GenStart).1 ->
  Z.of_nat (String.length p) = args.length a.
Proof.
  intros Hp.
  pose proof (gen_calls_prefix a charset sds GenStart) as [rest Hpre].
  assert (p ∈ pending a charset GenStart) as Hin.
  { rewrite Hpre. apply elem_of_app. by left. }
  cbn [pending] in Hin. apply elem_of_app in Hin as [Hin|Hin].
  - by apply priority_items_length.
  - destruct (Z.ltb_spec (args.length a) 0) as [Hneg|Hnonneg].
    + unfold exhaustive_items, product in Hin.
      destruct (Z.ltb_spec (args.length a) 0); [|lia]. cbn in Hin. by apply elem_of_nil in Hin.
    + apply elem_of_exhaustive_items in Hin as [Hlen _]; [lia|done].
Qed.

Lemma X2_candidates_have_requested_length_witness :
  let a := args.mk "10.0.0.1" "root" 2 false false false "ab" in
  Z.of_nat (String.length "ba") = 2%Z.
Proof.
  intros a.
  apply (X2_candidates_have_requested_length a (build_charset a) (replicate 3 false) "ba").
  vm_compute. apply list_elem_of_In. cbn. auto.
Defined.

(** X3: cancellation only truncates: under any sequence of readings of
    the shutdown flag, the candidates yielded are an initial part of what
    the generator yields when it is never cancelled, in the same order. *)
Theorem X3_cancellation_truncates (a : args.t) (charset : string) (sds : list bool) :
  yielded (gen_calls a charset sds GenStart).1
  `prefix_of` priority_items a ++ exhaustive_items a charset.
Proof. apply (gen_calls_prefix a charset sds GenStart). Qed.

(** X4: the first loop of the generator does not look at the shutdown
    flag: if every call finds the flag set, the generator still yields all
    priority patterns for the requested length, and nothing else. *)
Theorem X4_shutdown_keeps_priority_patterns (a : args.t) (charset : string) (n : nat) :
  yielded (gen_calls a charset (replicate n true) GenStart).1 = take n (priority_items a).
Proof.
  destruct n as [|n]; [done|].
  unfold priority_items. cbn [replicate gen_calls gen_next].
  destruct (PRIORITY_PATTERNS !! args.length a) as [pats|] eqn:E; cbn [default].
  - change (priority_loop a charset true pats) with (gen_next a charset true (GenPriority pats)).
    change (yielded (gen_calls a charset (replicate (S n) true) (GenPriority pats)).1
            = take (S n) pats).
    apply gen_calls_set_priority.
  - change (enter_product a charset true) with (gen_next a charset true (GenPriority [])).
    change (yielded (gen_calls a charset (replicate (S n) true) (GenPriority [])).1
            = take (S n) []).
    apply gen_calls_set_priority.
Qed.

(** * Further properties of the error-adaptive controller *)

Lemma handle_connection_error_cases (now jitter : float) (self : BruteForcer) :
  let r := handle_connection_error now jitter self in
  (pauses r.2 = 1 /\ consecutive_errors r.1 = 0 /\ 3 <= consecutive_errors self + 1) \/
  (pauses r.2 = 0 /\ consecutive_errors r.1 = consecutive_errors self + 1).
Proof.
  unfold handle_connection_error. cbn.
  destruct (_ && _) eqn:E; cbn; [left|right; by split].
  split; [done|]. split; [done|].
  apply andb_true_iff in E as [E _].
  destruct (consecutive_errors self + 1) as [|[|[|c]]]; (done || lia).
Qed.

(** X5: the long pause needs three errors in a row since the last pause
    or rejection: of any three successive calls of
    [handle_connection_error], whatever the times and jitters, at most one
    takes the 10-second branch. *)
Theorem X5_pauses_are_three_errors_apart
    (t1 j1 t2 j2 t3 j3 : float) (self : BruteForcer) :
  let r1 := handle_connection_error t1 j1 self in
  let r2 := handle_connection_error t2 j2 r1.1 in
  let r3 := handle_connection_error t3 j3 r2.1 in
  pauses r1.2 + pauses r2.2 + pauses r3.2 <= 1.
Proof.
  intros r1 r2 r3.
  pose proof (handle_connection_error_cases t1 j1 self) as H1.
  pose proof (handle_connection_error_cases t2 j2 r1.1) as H2.
  pose proof (handle_connection_error_cases t3 j3 r2.1) as H3.
  fold r1 in H1, H2. fold r2 in H2, H3. fold r3 in H3.
  cbv zeta in H1, H2, H3. lia.
Qed.

(** In the initial state the first two transport errors are retried after
    the short delay, however close together they are. *)
Lemma first_errors_do_not_pause (now t1 j1 t2 j2 : float) :
  let r1 := handle_connection_error t1 j1 (init_BruteForcer now) in
  let r2 := handle_connection_error t2 j2 r1.1 in
  r1.2 = [Sleep (PrimFloat.add RETRY_DELAY j1)] /\
  r2.2 = [Sleep (PrimFloat.add RETRY_DELAY j2)].
Proof. done. Qed.

Section ErrorCounters.
Variable a : args.t.
Variable charset : string.

Lemma try_connect_connection_errors (att : attempt) (now jitter : float) (self : BruteForcer) :
  let self' := (try_connect att now jitter self).1.2 in
  connection_errors self' =
    connection_errors self + (if is_transport (classify att) then 1 else 0) /\
  (consecutive_errors self <= connection_errors self ->
   consecutive_errors self' <= connection_errors self').
Proof.
  unfold try_connect, classify.
  destruct (attempt_raised att) as [[| | |]|]; cbn.
  - split; lia.
  - unfold handle_connection_error. cbn. destruct (_ && _); cbn; split; lia.
  - unfold handle_connection_error. cbn. destruct (_ && _); cbn; split; lia.
  - split; lia.
  - split; lia.
Qed.

Lemma exec_connection_errors l s s' :
  exec a charset l s = Some s' ->
  connection_errors (bf s') = connection_errors (bf s) + transport_errors a charset [l] s /\
  (consecutive_errors (bf s) <= connection_errors (bf s) ->
   consecutive_errors (bf s') <= connection_errors (bf s')).
Proof.
  intros H. cbn [transport_errors]. rewrite H.
  exec_inv H; cbn in *; try (split; lia).
  all: match goal with E : try_connect ?att ?now ?j ?self = _ |- _ =>
         pose proof (try_connect_connection_errors att now j self) as Hc;
         rewrite E in Hc; cbn in Hc end.
  all: destruct Hc as [-> Hle].
  all: match goal with E : is_transport _ = _ |- _ => rewrite E in * end.
  all: split; [lia|done].
Qed.

Lemma exec_all_connection_errors ls s s' :
  exec_all a charset ls s = Some s' ->
  connection_errors (bf s') = connection_errors (bf s) + transport_errors a charset ls s /\
  (consecutive_errors (bf s) <= connection_errors (bf s) ->
   consecutive_errors (bf s') <= connection_errors (bf s')).
Proof.
  revert s. induction ls as [|l ls IH]; intros s H; cbn in H.
  - simplify_eq. cbn. split; [lia|done].
  - destruct (exec a charset l s) as [s1|] eqn:E; [|done].
    destruct (exec_connection_errors l s s1 E) as [Hc1 Hle1].
    destruct (IH s1 H) as [Hc Hle].
    cbn [transport_errors] in *. rewrite E in *. split; [lia|auto].
Qed.

End ErrorCounters.

(** X6: at every point of a run [connection_errors] is the number of
    [try_connect] calls so far that ended in an SSH or socket error, and
    [consecutive_errors] never exceeds it. *)
Theorem X6_connection_errors_count_transport_errors
    (a : args.t) (charset : string) (now : float) (ls : list label) (s : state) :
  exec_all a charset ls (init_state now) = Some s ->
  connection_errors (bf s) = transport_errors a charset ls (init_state now) /\
  consecutive_errors (bf s) <= connection_errors (bf s).
Proof.
  intros H. destruct (exec_all_connection_errors a charset ls _ _ H) as [Hc Hle].
  split; [exact Hc|]. apply Hle. cbn. lia.
Qed.

Lemma X6_connection_errors_count_transport_errors_witness :
  let a := args.mk "10.0.0.1" "root" 1 false false false "x" in
  let w := Worker 0 (RaisedEarly (SocketError "refused")) 1%float 0%float in
  let ls := [Control; Control; Control; Control; Control; w; w; w; w] in
  exists s,
    exec_all a (build_charset a) ls (init_state 0%float) = Some s /\
    connection_errors (bf s) = 1 /\
    transport_errors a (build_charset a) ls (init_state 0%float) = 1 /\
    consecutive_errors (bf s) <= connection_errors (bf s).
Proof.
  intros a w ls. eexists. split; [vm_compute; reflexivity|].
  split; [reflexivity|]. split; [reflexivity|].
  apply (X6_connection_errors_count_transport_errors a (build_charset a) 0%float ls).
  vm_compute. reflexivity.
Defined.

(** * Further properties of the worker pool *)

(** X7: at every point of a run [attempts], together with the workers
    that are about to execute line 155, is the number of [try_connect]
    calls so far that returned [False]; so when no worker is in between,
    in particular at the end of a run, [attempts] is the number of failed
    probes. *)
Theorem X7_attempts_count_failed_probes
    (a : args.t) (charset : string) (now : float) (ls : list label) (s : state) :
  exec_all a charset ls (init_state now) = Some s ->
  attempts (bf s) + count_workers counting (workers s) =
    connects a charset true ls (init_state now).
Proof. apply attempts_count_failures. Qed.

Lemma X7_attempts_count_failed_probes_witness :
  let a := args.mk "10.0.0.1" "root" 1 false false false "x" in
  let w := Worker 0 (Connected 0.25%float (Some AuthenticationException)) 1%float 0%float in
  let ls := [Control; Control; Control; Control; Control; w; w; w; w; w; w] in
  exists s,
    exec_all a (build_charset a) ls (init_state 0%float) = Some s /\
    workers s = [WLoop] /\ attempts (bf s) = 1 /\
    attempts (bf s) + count_workers counting (workers s) =
      connects a (build_charset a) true ls (init_state 0%float).
Proof.
  intros a w ls. eexists. split; [vm_compute; reflexivity|].
  split; [reflexivity|]. split; [reflexivity|].
  apply (X7_attempts_count_failed_probes a (build_charset a) 0%float ls).
  vm_compute. reflexivity.
Defined.

Section Pool.
Variable a : args.t.
Variable charset : string.

Lemma exec_workers_length l s s' :
  exec a charset l s = Some s' ->
  (before_start (control s) = false -> List.length (workers s') = List.length (workers s)) /\
  (List.length (workers s) <= MAX_THREADS -> List.length (workers s') <= MAX_THREADS).
Proof.
  intros H. exec_inv H; unfold set_worker;
    cbn [workers control set_control set_workers set_bf set_gen set_handler emit
         before_start];
    rewrite ?length_insert; try (split; (done || lia)).
  rewrite length_replicate. split; [done|lia].
Qed.

Lemma exec_counters_mono l s s' :
  exec a charset l s = Some s' ->
  attempts (bf s) <= attempts (bf s') /\
  connection_errors (bf s) <= connection_errors (bf s').
Proof.
  intros H.
  destruct (exec_connection_errors a charset l s s' H) as [Hc _].
  split; [|lia]. clear Hc.
  exec_inv H; cbn in *; try lia.
  all: try_connect_frame_of Hfr; destruct Hfr as (_ & _ & _ & -> & _); lia.
Qed.

End Pool.

(** X8: a run never has more than [MAX_THREADS] = 5 workers, and the pool
    is not resized once it has been started at lines 180-184: no later
    step adds or removes a worker thread. *)
Theorem X8_worker_pool_is_fixed
    (a : args.t) (charset : string) (s : state) :
  reachable a charset s ->
  List.length (workers s) <= MAX_THREADS /\
  forall ls s', before_start (control s) = false ->
    exec_all a charset ls s = Some s' ->
    List.length (workers s') = List.length (workers s).
Proof.
  intros (now & ls0 & Hrun). split.
  - assert (List.length (workers (init_state now)) <= MAX_THREADS) as Hinit
      by (cbn; unfold MAX_THREADS; lia).
    revert Hrun Hinit. generalize (init_state now).
    induction ls0 as [|l ls0 IH]; intros s0 Hrun Hlen; cbn in Hrun.
    + by simplify_eq.
    + destruct (exec a charset l s0) as [s1|] eqn:E; [|done].
      apply (IH s1 Hrun). by apply (exec_workers_length a charset l s0 s1 E).
  - clear Hrun. intros ls. revert s.
    induction ls as [|l ls IH]; intros s s' Hstarted H; cbn in H.
    + by simplify_eq.
    + destruct (exec a charset l s) as [s1|] eqn:E; [|done].
      destruct (exec_workers_length a charset l s s1 E) as [Hlen _].
      rewrite <- (Hlen Hstarted). apply IH; [|done].
      clear -E Hstarted. exec_inv E; cbn in *; congruence.
Qed.

Lemma X8_worker_pool_is_fixed_witness :
  let a := args.mk "10.0.0.1" "root" 3 false false true "" in
  exists s,
    exec_all a (build_charset a) (replicate 2003 Control) (init_state 0%float) = Some s /\
    Queue.qsize (queue (bf s)) = 1000 /\
    List.length (workers s) = 5 /\
    List.length (workers s) <= MAX_THREADS.
Proof.
  intros a. eexists. split; [vm_compute; reflexivity|].
  split; [reflexivity|]. split; [reflexivity|].
  apply (X8_worker_pool_is_fixed a (build_charset a)).
  exists 0%float, (replicate 2003 Control). vm_compute. reflexivity.
Defined.

(** X9: in every reachable state the queue's count of unfinished tasks is
    the number of queued candidates plus the number of candidates that
    workers hold, so the [task_done] of a worker that holds a candidate
    never raises. *)
Theorem X9_task_done_never_raises
    (a : args.t) (charset : string) (s : state) (i : nat) (pc : worker_pc) :
  reachable a charset s ->
  workers s !! i = Some pc ->
  holding pc = true ->
  Queue.unfinished_tasks (queue (bf s)) =
    Queue.qsize (queue (bf s)) + count_workers holding (workers s) /\
  exists q', Queue.task_done (queue (bf s)) = Some q' /\
             Queue.items q' = Queue.items (queue (bf s)).
Proof.
  intros Hr Hpc Hh. destruct (reachable_tasks_inv a charset s Hr) as [_ Htasks].
  split; [done|].
  pose proof (count_workers_pos holding (workers s) i pc Hpc Hh) as Hpos.
  unfold Queue.task_done.
  destruct (Queue.unfinished_tasks (queue (bf s))) as [|n]; [lia|]. by eexists.
Qed.

Lemma X9_task_done_never_raises_witness :
  let a := args.mk "10.0.0.1" "root" 1 false false false "x" in
  let w := Worker 0 (Connected 0.25%float None) 1%float 0%float in
  let ls := [Control; Control; Control; Control; Control; w; w] in
  exists s,
    exec_all a (build_charset a) ls (init_state 0%float) = Some s /\
    workers s = [WCheck "x"] /\
    exists q', Queue.task_done (queue (bf s)) = Some q' /\
               Queue.items q' = Queue.items (queue (bf s)).
Proof.
  intros a w ls. eexists. split; [vm_compute; reflexivity|]. split; [reflexivity|].
  apply (X9_task_done_never_raises a (build_charset a) _ 0 (WCheck "x")).
  - exists 0%float, ls. vm_compute. reflexivity.
  - reflexivity.
  - reflexivity.
Defined.

(** X10: no step of a run decreases [attempts] or [connection_errors]. *)
Theorem X10_counters_never_decrease
    (a : args.t) (charset : string) (ls : list label) (s s' : state) :
  exec_all a charset ls s = Some s' ->
  attempts (bf s) <= attempts (bf s') /\
  connection_errors (bf s) <= connection_errors (bf s').
Proof.
  revert s. induction ls as [|l ls IH]; intros s H; cbn in H.
  - simplify_eq. split; lia.
  - destruct (exec a charset l s) as [s1|] eqn:E; [|done].
    destruct (exec_counters_mono a charset l s s1 E).
    destruct (IH s1 H). split; lia.
Qed.

Lemma X10_counters_never_decrease_witness :
  let a := args.mk "10.0.0.1" "root" 1 false false false "x" in
  let w := Worker 0 (Connected 0.25%float (Some (SSHException "reset"))) 1%float 0%float in
  let ls := [Control; Control; Control; Control; Control; w; w; w; w; w] in
  exists s,
    exec_all a (build_charset a) ls (init_state 0%float) = Some s /\
    attempts (bf s) = 1 /\ connection_errors (bf s) = 1 /\
    attempts (bf (init_state 0%float)) <= attempts (bf s) /\
    connection_errors (bf (init_state 0%float)) <= connection_errors (bf s).
Proof.
  intros a w ls. eexists. split; [vm_compute; reflexivity|].
  split; [reflexivity|]. split; [reflexivity|].
  apply (X10_counters_never_decrease a (build_charset a) ls).
  vm_compute. reflexivity.
Defined.

(** * Further properties of the end of a run *)

Section EndOfRun.
Variable a : args.t.
Variable charset : string.

Lemma reachable_exec_all ls s s' :
  reachable a charset s -> exec_all a charset ls s = Some s' -> reachable a charset s'.
Proof.
  intros (now & ls0 & Hrun) H. exists now, (ls0 ++ ls).
  rewrite exec_all_app, Hrun. exact H.
Qed.

(** [queue.join()] returns only with no unfinished task, and none is
    added afterwards. *)
Lemma exec_joined l s s' :
  exec a charset l s = Some s' ->
  (joined (control s) = true -> Queue.unfinished_tasks (queue (bf s)) = 0) ->
  joined (control s') = true -> Queue.unfinished_tasks (queue (bf s')) = 0.
Proof.
  intros H Hj. unfold Queue.put_nowait, Queue.get_nowait, Queue.task_done in *.
  exec_inv H; unfold Queue.put_nowait, Queue.get_nowait, Queue.task_done in *;
    repeat case_match; simplify_eq; cbn in *; try done; try (by auto).
  all: try (intros Hj'; specialize (Hj Hj'); congruence).
  all: try_connect_frame_of Hfr; destruct Hfr as (_ & _ & -> & _); auto.
Qed.

Lemma reachable_joined s :
  reachable a charset s ->
  joined (control s) = true -> Queue.unfinished_tasks (queue (bf s)) = 0.
Proof.
  intros (now & ls & Hrun).
  assert (joined (control (init_state now)) = true ->
          Queue.unfinished_tasks (queue (bf (init_state now))) = 0) as Hinit by done.
  revert Hrun Hinit. generalize (init_state now).
  induction ls as [|l ls IH]; intros s0 Hrun Hinv; cbn in Hrun.
  - by simplify_eq.
  - destruct (exec a charset l s0) as [s1|] eqn:E; [|done].
    eauto using exec_joined.
Qed.

Lemma forallb_lookup {A} (f : A -> bool) (l : list A) i x :
  forallb f l = true -> l !! i = Some x -> f x = true.
Proof.
  intros Hall Hi. apply (proj1 (forallb_forall f l) Hall).
  apply list_elem_of_In. by eapply list_elem_of_lookup_2.
Qed.

(** With every worker ended, only the control thread and the handler
    move, and they take nothing off the queue. *)
Lemma exec_all_workers_ended l s s' :
  exec a charset l s = Some s' ->
  before_start (control s) = false ->
  forallb returned (workers s) = true ->
  before_start (control s') = false /\
  workers s' = workers s /\
  Queue.items (queue (bf s)) `prefix_of` Queue.items (queue (bf s')).
Proof.
  intros H Hstarted Hall.
  destruct l as [| | |i att now jitter].
  - split; [|split].
    + clear Hall. exec_inv H; cbn in *; congruence.
    + clear Hall. exec_inv H; cbn in *; congruence.
    + clear Hall Hstarted. cbn in H. unfold control_exec, Queue.put_nowait in H.
      repeat case_match; simplify_eq; cbn; try reflexivity.
      all: by apply prefix_app_r.
  - cbn in H. unfold interrupt_exec in H. repeat case_match; simplify_eq; done.
  - cbn in H. unfold handler_exec in H. repeat case_match; simplify_eq; done.
  - cbn in H. unfold worker_exec in H.
    destruct (workers s !! i) as [pc|] eqn:Hpc; [|done].
    pose proof (forallb_lookup returned (workers s) i pc Hall Hpc) as Hret.
    destruct pc; done.
Qed.

End EndOfRun.

(** X11: a run whose workers have all ended while candidates are still
    queued never gets past [queue.join()] (line 200): the control thread
    does not reach the joining of the threads, the summary or its end,
    and the queue is never emptied. This is what happens after a success
    with candidates left in the queue. *)
Theorem X11_join_blocks_on_leftover_candidates
    (a : args.t) (charset : string) (s : state) (ls : list label) (s' : state) :
  reachable a charset s ->
  before_start (control s) = false ->
  forallb returned (workers s) = true ->
  0 < Queue.qsize (queue (bf s)) ->
  exec_all a charset ls s = Some s' ->
  joined (control s') = false /\ 0 < Queue.qsize (queue (bf s')).
Proof.
  intros Hreach Hstarted Hall Hq Hrun.
  assert (before_start (control s') = false /\ forallb returned (workers s') = true /\
          0 < Queue.qsize (queue (bf s'))) as (Hstarted' & Hall' & Hq').
  { clear Hreach. revert s Hstarted Hall Hq Hrun.
    induction ls as [|l ls IH]; intros s Hstarted Hall Hq Hrun; cbn in Hrun.
    - by simplify_eq.
    - destruct (exec a charset l s) as [s1|] eqn:E; [|done].
      destruct (exec_all_workers_ended a charset l s s1 E Hstarted Hall)
        as (Hstarted1 & Hw1 & [rest Hpre]).
      apply (IH s1); [done|by rewrite Hw1| |done].
      unfold Queue.qsize in *. rewrite Hpre, length_app. lia. }
  split; [|done].
  pose proof (reachable_exec_all a charset ls s s' Hreach Hrun) as Hreach'.
  destruct (reachable_tasks_inv a charset s' Hreach') as [_ Htasks].
  destruct (joined (control s')) eqn:Hj; [|done].
  pose proof (reachable_joined a charset s' Hreach' Hj). lia.
Qed.

Lemma X11_join_blocks_on_leftover_candidates_witness :
  let a := args.mk "10.0.0.1" "root" 2 false false false "ab" in
  let fill := replicate 11 Control in
  let w i := Worker i (Connected 0.25%float None) 1%float 0%float in
  let ls := fill ++ [w 0; w 0; w 0; w 0; w 0; w 1; w 2; w 3] in
  exists s s',
    exec_all a (build_charset a) ls (init_state 0%float) = Some s /\
    found (bf s) = true /\
    workers s = [WReturn; WReturn; WReturn; WReturn] /\
    Queue.items (queue (bf s)) = ["ab"; "ba"; "bb"] /\
    exec_all a (build_charset a) [Control; Control] s = Some s' /\
    control s' = CJoin /\ exec a (build_charset a) Control s' = None /\
    joined (control s') = false /\ 0 < Queue.qsize (queue (bf s')).
Proof.
  intros a fill w ls. eexists _, _.
  split; [vm_compute; reflexivity|]. split; [reflexivity|]. split; [reflexivity|].
  split; [reflexivity|]. split; [vm_compute; reflexivity|]. split; [reflexivity|].
  split; [reflexivity|].
  eapply (X11_join_blocks_on_leftover_candidates a (build_charset a) _ [Control; Control]).
  - exists 0%float, ls. vm_compute. reflexivity.
  - reflexivity.
  - reflexivity.
  - vm_compute. lia.
  - vm_compute. reflexivity.
Defined.

Section InFlight.
Variable a : args.t.
Variable charset : string.

Lemma exec_in_flight l s s' :
  found (bf s) || shutdown (bf s) = true ->
  exec a charset l s = Some s' ->
  connects a charset false [l] s + count_workers connecting (workers s')
    <= count_workers connecting (workers s) /\
  found (bf s') || shutdown (bf s') = true.
Proof.
  intros Hflag H. split.
  - cbn [connects]. rewrite H.
    destruct l as [| | |i att now jitter].
    + cbn in H. unfold control_exec in H.
      repeat case_match; simplify_eq; cbn in *; try lia.
      match goal with |- context [replicate ?n WLoop] =>
        rewrite (count_workers_replicate connecting n) by done end. lia.
    + cbn in H. unfold interrupt_exec in H. repeat case_match; simplify_eq; cbn; lia.
    + cbn in H. unfold handler_exec in H. repeat case_match; simplify_eq; cbn; lia.
    + cbn in H. unfold worker_exec, worker_task_done in H.
      destruct (workers s !! i) as [pc|] eqn:Hpc; [|done].
      assert (shutdown (bf s) || found (bf s) = true) as Hflag'
        by (by rewrite orb_comm).
      repeat case_match; simplify_eq; cbn in *.
      all: try congruence.
      all: match goal with
           | Hw : workers ?s0 !! ?j = Some _ |- context [insert ?j ?new (workers ?s0)] =>
               pose proof (count_workers_insert connecting (workers s0) j _ new Hw) as Hins
           end.
      all: cbn in Hins; try lia.
      all: destruct (classify att); lia.
  - apply orb_true_iff in Hflag as [Hf|Hs]; apply orb_true_iff;
      [left; by eapply exec_found_mono|right; by eapply exec_shutdown_mono].
Qed.

End InFlight.

(** X12: once [found] or [shutdown] is set, no worker starts on a new
    candidate: along any continuation of the run, [try_connect] is called
    at most for the candidates that workers had already accepted (passed
    the test of line 143), at most one per worker. *)
Theorem X12_only_in_flight_candidates_after_stop
    (a : args.t) (charset : string) (ls : list label) (s : state) :
  found (bf s) || shutdown (bf s) = true ->
  connects a charset false ls s <= count_workers connecting (workers s).
Proof.
  revert s. induction ls as [|l ls IH]; intros s Hflag; cbn [connects]; [lia|].
  destruct (exec a charset l s) as [s'|] eqn:E; [|lia].
  destruct (exec_in_flight a charset l s s' Hflag E) as [Hstep Hflag'].
  specialize (IH s' Hflag'). cbn [connects] in Hstep. rewrite E in Hstep. lia.
Qed.

Lemma X12_only_in_flight_candidates_after_stop_witness :
  let a := args.mk "10.0.0.1" "root" 2 false false false "ab" in
  let w i := Worker i (Connected 0.25%float None) 1%float 0%float in
  let before := replicate 11 Control ++ [w 0; w 0; w 0; w 1; w 1; w 1; w 0; w 0] in
  let after := [w 1; w 1; w 2; w 3; w 2; w 3] in
  exists s,
    exec_all a (build_charset a) before (init_state 0%float) = Some s /\
    found (bf s) = true /\
    workers s = [WReturn; WConnect "ab"; WLoop; WLoop] /\
    connects a (build_charset a) false after s = 1 /\
    connects a (build_charset a) false after s <= count_workers connecting (workers s).
Proof.
  intros a w before after. eexists.
  split; [vm_compute; reflexivity|]. split; [reflexivity|]. split; [reflexivity|].
  split; [reflexivity|].
  apply (X12_only_in_flight_candidates_after_stop a (build_charset a) after).
  reflexivity.
Defined.

(** * Further properties of the path from the generator to the workers *)

Section Fifo.
Variable a : args.t.
Variable charset : string.

Lemma fifo_inv_same done s s' :
  gen s' = gen s -> Queue.items (queue (bf s')) = Queue.items (queue (bf s)) ->
  fifo_inv a charset done s -> fifo_inv a charset done s'.
Proof. unfold fifo_inv. by intros -> ->. Qed.

(** [next(gen)] followed by [put]: the candidate moves from the generator
    to the back of the queue. *)
Lemma fifo_inv_put done s r g' :
  gen_next a charset (shutdown (bf s)) (gen s) = (r, g') ->
  fifo_inv a charset done s ->
  match r with
  | Yield pwd =>
      forall s', gen s' = g' ->
        Queue.items (queue (bf s')) = Queue.items (queue (bf s)) ++ [pwd] ->
        fifo_inv a charset done s'
  | _ =>
      forall s', gen s' = g' ->
        Queue.items (queue (bf s')) = Queue.items (queue (bf s)) ->
        fifo_inv a charset done s'
  end.
Proof.
  intros Hnext (rest & Hfull & Hrest).
  pose proof (gen_next_pending a charset (shutdown (bf s)) (gen s)) as Hn.
  rewrite Hnext in Hn.
  destruct r as [pwd| |]; intros s' Hg Hitems.
  - destruct Hrest as [Hdone| ->]; [by rewrite Hdone in Hnext|].
    exists (pending a charset g'). rewrite Hitems, Hg. split; [|by right].
    rewrite <- Hfull, Hn, <- !app_assoc. done.
  - exists rest. rewrite Hitems, Hg. split; [done|by left].
  - exists rest. rewrite Hitems, Hg. split; [done|by left].
Qed.

Lemma exec_fifo l s s' done :
  queue_inv s -> fifo_inv a charset done s ->
  exec a charset l s = Some s' ->
  fifo_inv a charset (done ++ dequeued a charset [l] s) s'.
Proof.
  intros (_ & Hfill & Hpoll) Hinv H. cbn [dequeued]. rewrite H, app_nil_r.
  destruct l as [| | |i att now jitter].
  - rewrite app_nil_r. cbn in H. unfold control_exec in H.
    destruct (negb (handler_idle s)); [done|].
    destruct (control s) eqn:Hc; try done.
    all: try (repeat case_match; simplify_eq; by apply (fifo_inv_same done s)).
    + destruct (gen_next a charset (shutdown (bf s)) (gen s)) as [r g'] eqn:Hnext.
      pose proof (fifo_inv_put done s r g' Hnext Hinv) as Hput.
      specialize (Hfill eq_refl).
      destruct r as [pwd| |]; cbn in H.
      * unfold Queue.put_nowait, Queue.qsize, Queue.maxsize in *.
        destruct (Nat.leb_spec 5000 (List.length (Queue.items (queue (bf s))))); [lia|].
        simplify_eq. by apply Hput.
      * simplify_eq. by apply Hput.
      * simplify_eq. by apply Hput.
    + destruct (gen_next a charset (shutdown (bf s)) (gen s)) as [r g'] eqn:Hnext.
      pose proof (fifo_inv_put done s r g' Hnext Hinv) as Hput.
      specialize (Hpoll eq_refl).
      destruct r as [pwd| |]; cbn in H.
      * unfold Queue.put_nowait, Queue.qsize, Queue.maxsize in *.
        destruct (Nat.leb_spec 5000 (List.length (Queue.items (queue (bf s))))); [lia|].
        simplify_eq. by apply Hput.
      * simplify_eq. by apply Hput.
      * simplify_eq. by apply Hput.
  - rewrite app_nil_r. cbn in H. unfold interrupt_exec in H.
    repeat case_match; simplify_eq; by apply (fifo_inv_same done s).
  - rewrite app_nil_r. cbn in H. unfold handler_exec in H.
    repeat case_match; simplify_eq; by apply (fifo_inv_same done s).
  - cbn in H. unfold worker_exec, worker_task_done in H.
    destruct (workers s !! i) as [pc|] eqn:Hpc; [|done].
    destruct pc; try (rewrite app_nil_r).
    all: try (repeat case_match; simplify_eq; queue_facts;
              by apply (fifo_inv_same done s)).
    + (* line 139 *)
      destruct (Queue.get_nowait (queue (bf s))) as [[password q']|] eqn:Hget.
      * simplify_eq. apply get_nowait_Some in Hget.
        destruct Hinv as (rest & Hfull & Hrest). exists rest.
        split; [|exact Hrest]. unfold set_worker.
        cbn [bf queue set_workers set_bf set_queue].
        rewrite <- Hfull, Hget, <- !app_assoc. done.
      * rewrite app_nil_r. simplify_eq. by apply (fifo_inv_same done s).
    + (* line 147 *)
      repeat case_match; simplify_eq.
      all: try_connect_frame_of Hfr; destruct Hfr as (_ & _ & Hq & _).
      all: apply (fifo_inv_same done s); cbn; [done|by rewrite Hq|done].
Qed.

Lemma exec_all_fifo ls s s' done :
  queue_inv s -> fifo_inv a charset done s ->
  exec_all a charset ls s = Some s' ->
  fifo_inv a charset (done ++ dequeued a charset ls s) s'.
Proof.
  revert s done. induction ls as [|l ls IH]; intros s done Hq Hinv H; cbn in H.
  - simplify_eq. cbn. by rewrite app_nil_r.
  - destruct (exec a charset l s) as [s1|] eqn:E; [|done].
    pose proof (exec_fifo l s s1 done Hq Hinv E) as Hinv1.
    pose proof (exec_queue_inv a charset l s s1 E Hq) as Hq1.
    specialize (IH s1 _ Hq1 Hinv1 H).
    cbn [dequeued] in *. rewrite E in *. rewrite app_nil_r in IH.
    by rewrite <- app_assoc in IH.
Qed.

End Fifo.

(** X13: nothing is lost, repeated or reordered between the generator and
    the workers: at every point of a run the candidates that workers have
    dequeued so far, in the order of their dequeuing, followed by the
    content of the queue, are an initial part of what the uncancelled
    generator yields. *)
Theorem X13_queue_preserves_generator_order
    (a : args.t) (charset : string) (now : float) (ls : list label) (s : state) :
  exec_all a charset ls (init_state now) = Some s ->
  dequeued a charset ls (init_state now) ++ Queue.items (queue (bf s))
  `prefix_of` priority_items a ++ exhaustive_items a charset.
Proof.
  intros H.
  assert (queue_inv (init_state now)) as Hq.
  { unfold queue_inv. cbn. split; [lia|]. split; intros; (done || lia). }
  assert (fifo_inv a charset [] (init_state now)) as Hinit.
  { exists (pending a charset GenStart). split; [done|by right]. }
  destruct (exec_all_fifo a charset ls _ _ [] Hq Hinit H) as (rest & Hfull & _).
  exists rest. cbn in Hfull. by rewrite <- Hfull, <- app_assoc.
Qed.

Lemma X13_queue_preserves_generator_order_witness :
  let a := args.mk "10.0.0.1" "root" 2 false false false "ab" in
  let w i := Worker i (Connected 0.25%float (Some AuthenticationException)) 1%float 0%float in
  let ls := replicate 11 Control ++ [w 1; w 1; w 0; w 0; w 2; w 2] in
  exists s,
    exec_all a (build_charset a) ls (init_state 0%float) = Some s /\
    dequeued a (build_charset a) ls (init_state 0%float) = ["aa"; "ab"; "ba"] /\
    Queue.items (queue (bf s)) = ["bb"] /\
    dequeued a (build_charset a) ls (init_state 0%float) ++ Queue.items (queue (bf s))
    `prefix_of` priority_items a ++ exhaustive_items a (build_charset a).
Proof.
  intros a w ls. eexists. split; [vm_compute; reflexivity|].
  split; [reflexivity|]. split; [reflexivity|].
  apply (X13_queue_preserves_generator_order a (build_charset a) 0%float ls).
  vm_compute. reflexivity.
Defined.

(** * Further properties of the start of a run *)

Section Startup.
Variable a : args.t.
Variable charset : string.

Lemma exec_all_cons l ls s s1 :
  exec a charset l s = Some s1 ->
  exec_all a charset (l :: ls) s = exec_all a charset ls s1.
Proof. intros H. cbn. by rewrite H. Qed.

Lemma fill_test_enter s :
  control s = CFill -> handler s = SigIdle -> shutdown (bf s) = false ->
  Queue.qsize (queue (bf s)) < 1000 ->
  exec a charset Control s = Some (set_control CFillPut s).
Proof.
  intros Hc Hidle Hsd Hq. cbn [exec]. unfold control_exec, handler_idle.
  rewrite Hidle, Hc, Hsd. cbn [negb andb].
  destruct (Nat.ltb_spec (Queue.qsize (queue (bf s))) 1000); [done|lia].
Qed.

Lemma fill_put s :
  control s = CFillPut -> handler s = SigIdle ->
  exec a charset Control s =
    let '(r, g') := gen_next a charset (shutdown (bf s)) (gen s) in
    match r with
    | Yield pwd =>
        match Queue.put_nowait pwd (queue (bf s)) with
        | Some q' =>
            Some (set_control CFill (set_bf (set_queue q' (bf s)) (set_gen g' s)))
        | None => Some (set_control CFill (emit [Sleep POLL_INTERVAL] (set_gen g' s)))
        end
    | StopIteration => Some (set_control CStart (set_gen g' s))
    | RaiseValueError => Some (set_control CFill (emit [Sleep POLL_INTERVAL] (set_gen g' s)))
    end.
Proof.
  intros Hc Hidle. cbn [exec]. unfold control_exec, handler_idle.
  rewrite Hidle, Hc. cbn [negb]. by destruct (gen_next _ _ _ _) as [[?| |] ?].
Qed.

(** The initial fill loop (lines 170-176), run without interruption from
    the head of the loop: it stops at 1000 queued candidates or at the end
    of the generator, whichever comes first. *)
Lemma fill_from ps s :
  pending a charset (gen s) = ps ->
  control s = CFill -> handler s = SigIdle -> shutdown (bf s) = false ->
  Queue.qsize (queue (bf s)) <= 1000 ->
  exists n s',
    exec_all a charset (replicate n Control) s = Some s' /\
    control s' = CStart /\ handler s' = SigIdle /\
    Queue.items (queue (bf s')) =
      Queue.items (queue (bf s)) ++ take (1000 - Queue.qsize (queue (bf s))) ps /\
    workers s' = workers s /\ locked_fields (bf s') = locked_fields (bf s).
Proof.
  revert s. induction ps as [|p ps IH]; intros s Hps Hc Hidle Hsd Hq.
  - (* the generator has nothing left *)
    destruct (decide (Queue.qsize (queue (bf s)) = 1000)) as [Hfull|Hroom].
    { exists 1, (set_control CStart s). split.
      - cbn. unfold control_exec, handler_idle. rewrite Hidle, Hc, Hsd, Hfull. done.
      - rewrite take_nil, app_nil_r. done. }
    assert (exec a charset Control s = Some (set_control CFillPut s)) as H1
      by (apply fill_test_enter; (done || lia)).
    pose proof (gen_next_pending a charset false (gen s)) as Hn.
    pose proof (fill_put (set_control CFillPut s) eq_refl Hidle) as H2.
    cbn [bf gen set_control] in H2. rewrite Hsd in H2.
    destruct (gen_next a charset false (gen s)) as [[q| |] g'] eqn:Hnext.
    + by rewrite Hps in Hn.
    + eexists 2, _. split.
      * cbn [replicate]. rewrite (exec_all_cons _ _ _ _ H1), (exec_all_cons _ _ _ _ H2).
        reflexivity.
      * rewrite take_nil, app_nil_r. done.
    + subst g'.
      set (s2 := set_control CFill
                   (emit [Sleep POLL_INTERVAL] (set_gen GenDone (set_control CFillPut s))))
        in H2.
      assert (exec a charset Control s2 = Some (set_control CFillPut s2)) as H3
        by (apply fill_test_enter; (done || (cbn; lia))).
      pose proof (fill_put (set_control CFillPut s2) eq_refl Hidle) as H4.
      cbn [bf gen set_control set_gen emit s2 gen_next] in H4.
      eexists 4, _. split.
      * cbn [replicate].
        rewrite (exec_all_cons _ _ _ _ H1), (exec_all_cons _ _ _ _ H2),
          (exec_all_cons _ _ _ _ H3), (exec_all_cons _ _ _ _ H4). reflexivity.
      * rewrite take_nil, app_nil_r. done.
  - destruct (decide (Queue.qsize (queue (bf s)) = 1000)) as [Hfull|Hroom].
    { exists 1, (set_control CStart s). split.
      - cbn. unfold control_exec, handler_idle. rewrite Hidle, Hc, Hsd, Hfull. done.
      - rewrite Hfull, Nat.sub_diag, take_0, app_nil_r. done. }
    assert (exec a charset Control s = Some (set_control CFillPut s)) as H1
      by (apply fill_test_enter; (done || lia)).
    destruct (gen_next_clear a charset (gen s) p ps Hps) as (g' & Hnext & Hpend).
    set (q' := Queue.mk (Queue.items (queue (bf s)) ++ [p])
                 (S (Queue.unfinished_tasks (queue (bf s))))).
    set (s2 := set_control CFill
                 (set_bf (set_queue q' (bf s)) (set_gen g' (set_control CFillPut s)))).
    assert (exec a charset Control (set_control CFillPut s) = Some s2) as H2.
    { rewrite (fill_put (set_control CFillPut s) eq_refl Hidle).
      cbn [bf gen set_control]. rewrite Hsd, Hnext.
      unfold Queue.put_nowait, Queue.maxsize.
      destruct (Nat.leb_spec 5000 (Queue.qsize (queue (bf s)))); [lia|done]. }
    assert (Queue.qsize (queue (bf s2)) = S (Queue.qsize (queue (bf s)))) as Hq2.
    { unfold Queue.qsize. cbn. rewrite length_app. cbn. lia. }
    destruct (IH s2) as (n & s' & Hrun & Hc' & Hidle' & Hitems & Hw & Hlocked);
      [done|done|done|done|lia|].
    exists (S (S n)), s'. split.
    { cbn [replicate]. by rewrite (exec_all_cons _ _ _ _ H1), (exec_all_cons _ _ _ _ H2). }
    split; [done|]. split; [done|]. split; [|by split].
    rewrite Hitems, Hq2. cbn [s2 q' bf queue set_control set_bf set_queue Queue.items].
    replace (1000 - Queue.qsize (queue (bf s)))
      with (S (1000 - S (Queue.qsize (queue (bf s))))) by lia.
    cbn [take]. by rewrite <- app_assoc.
Qed.

End Startup.

(** X14: without a signal, the control thread gets from the start of
    [run] to the creation of the workers; the queue then holds the first
    1000 candidates of the generator, in generator order, or all of them
    if there are fewer, and the next statement starts as many workers as
    there are queued candidates, but at most five. *)
Theorem X14_startup_fill (a : args.t) (charset : string) (now : float) :
  exists n s s',
    exec_all a charset (replicate n Control) (init_state now) = Some s /\
    control s = CStart /\
    Queue.items (queue (bf s)) = take 1000 (priority_items a ++ exhaustive_items a charset) /\
    exec a charset Control s = Some s' /\
    control s' = CPoll /\
    workers s' = replicate (MAX_THREADS `min` Queue.qsize (queue (bf s))) WLoop /\
    queue (bf s') = queue (bf s).
Proof.
  destruct (fill_from a charset (pending a charset GenStart) (init_state now))
    as (n & s & Hrun & Hc & Hidle & Hitems & _); [done|done|done|done|cbn; lia|].
  exists n, s. eexists. split; [done|]. split; [done|]. split; [done|].
  cbn. unfold control_exec, handler_idle. rewrite Hidle, Hc. done.
Qed.

Section NegativeLength.
Variable a : args.t.
Variable charset : string.
Hypothesis length_negative : (args.length a < 0)%Z.

Lemma gen_next_negative sd :
  gen_next a charset sd GenStart = (RaiseValueError, GenDone).
Proof.
  cbn [gen_next]. unfold PRIORITY_PATTERNS.
  rewrite lookup_singleton_ne by lia.
  unfold enter_product, product.
  destruct (Z.ltb_spec (args.length a) 0); [done|lia].
Qed.

End NegativeLength.

(** X15: with a negative length the generator raises [ValueError] at the
    first [next]; the fill loop swallows it, sleeps the poll interval once
    and finds the generator finished; no worker is started, nothing is
    probed, and the run ends with the summary of 0 attempts. *)
Theorem X15_negative_length_run (a : args.t) (charset : string) (now : float) :
  (args.length a < 0)%Z ->
  exists s,
    exec_all a charset (replicate 12 Control) (init_state now) = Some s /\
    control s = CDone /\ workers s = [] /\
    Queue.items (queue (bf s)) = [] /\
    attempts (bf s) = 0 /\
    output s = [Sleep POLL_INTERVAL; Print (MsgFinished 0 0)].
Proof.
  intros Hneg. eexists. split.
  - change (replicate 12 Control) with (Control :: Control :: replicate 10 Control).
    erewrite exec_all_step;
      [|apply fill_test_enter; [reflexivity|reflexivity|reflexivity|cbn; lia]].
    erewrite exec_all_step.
    2:{ rewrite fill_put by reflexivity.
        cbn [bf gen set_control shutdown init_state init_BruteForcer].
        rewrite (gen_next_negative a charset Hneg). reflexivity. }
    vm_compute. reflexivity.
  - by repeat split.
Qed.

Lemma X15_negative_length_run_witness :
  let a := args.mk "10.0.0.1" "root" (-1) false false true "" in
  exists s,
    exec_all a (build_charset a) (replicate 12 Control) (init_state 0%float) = Some s /\
    control s = CDone /\ workers s = [] /\
    Queue.items (queue (bf s)) = [] /\
    attempts (bf s) = 0 /\
    output s = [Sleep POLL_INTERVAL; Print (MsgFinished 0 0)].
Proof.
  intros a. apply (X15_negative_length_run a (build_charset a) 0%float). cbn. lia.
Defined.

(** * A further property of [try_connect] *)

(** X16: [try_connect] returns [True] exactly when the attempt raised
    nothing, and on every path it leaves [found], [shutdown], the queue,
    [attempts], [start_time] and [last_print] as they were; on success it
    changes nothing at all. *)
Theorem X16_try_connect_result_and_frame
    (att : attempt) (now jitter : float) (self : BruteForcer) :
  let '(ok, self', evs) := try_connect att now jitter self in
  (ok = true <-> classify att = Success) /\
  (ok = true -> self' = self /\ evs = attempt_events att) /\
  found self' = found self /\ shutdown self' = shutdown self /\
  queue self' = queue self /\ attempts self' = attempts self /\
  start_time self' = start_time self /\ last_print self' = last_print self.
Proof.
  pose proof (try_connect_frame att now jitter self) as Hfr.
  destruct (try_connect att now jitter self) as [[ok self'] evs] eqn:E.
  cbn in Hfr. split; [|split; [|exact Hfr]].
  - destruct ok.
    + apply try_connect_true in E as [-> _]. done.
    + apply try_connect_false in E. split; [done|]. intros Hs. by destruct E.
  - intros ->. pose proof E as E'. apply try_connect_true in E' as [Hs ->].
    split; [done|]. unfold try_connect, classify in *.
    destruct (attempt_raised att) as [[| | |]|]; try done. by simplify_eq.
Qed.
